(** * XSD schema compiler ([parser.py]): model and verified properties

    The compiler reads a parsed XML-Schema document, indexes its top-level
    declarations, resolves a root type into a type expression and renders
    that expression as indented pseudo-schema text.

    Modelling conventions.
    - Python [str] is [string], the UTF-8 bytes of the text as 8-bit [ascii]
      characters.  The character classes of the normalizer ([0-9], [A-Z],
      [a-z], ['_']) and the separators [':'] and ['}'] are ASCII, and the
      normalizer replaces every run of other characters by one underscore, so
      on UTF-8 text it behaves as on the code points.  [Str.lower] is
      [str.lower] on ASCII text, which is all the normalizer applies it to;
      [Str.lower_utf8] is [str.lower] as far as comparisons with ASCII words
      can tell, for the context name of [_base_value_name].
    - An [xml.etree.ElementTree.Element] is a tag, an attribute dictionary
      and the list of its children in document order.
    - The three dictionaries of the schema index are [gmap string Element];
      the ignore set is a [gset string].
    - The mutually recursive resolver methods follow type references through
      the index, so they can nest without bound; Python then raises
      [RecursionError], which nothing in [parser.py] catches.  The methods
      take a [fuel] argument, the number of nested resolver calls that still
      fit under the interpreter's recursion limit; it decreases at every
      call, and [None] stands for the [RecursionError] raised when it is used
      up.  The renderer recurses on the finished expression only and is
      modelled as the total function it is on every finite expression.
    - Paths are POSIX paths. *)

From Stdlib Require Import Ascii String DecimalString.
From stdpp Require Import gmap strings list fin_maps option.

Local Open Scope string_scope.
Local Open Scope list_scope.

(** ** Characters and strings *)

Module Str.

Definition is_digit (c : ascii) : bool :=
  let n := nat_of_ascii c in (48 <=? n)%nat && (n <=? 57)%nat.

Definition is_upper (c : ascii) : bool :=
  let n := nat_of_ascii c in (65 <=? n)%nat && (n <=? 90)%nat.

Definition is_lower (c : ascii) : bool :=
  let n := nat_of_ascii c in (97 <=? n)%nat && (n <=? 122)%nat.

(** The class [[0-9A-Za-z]]. *)
Definition is_alnum (c : ascii) : bool := is_digit c || is_upper c || is_lower c.

Definition is_underscore (c : ascii) : bool := Ascii.eqb c "_".

Definition lower_char (c : ascii) : ascii :=
  if is_upper c then ascii_of_nat (nat_of_ascii c + 32) else c.

(** [s.lower()] on ASCII text. *)
Fixpoint lower (s : string) : string :=
  match s with
  | EmptyString => EmptyString
  | String c s' => String (lower_char c) (lower s')
  end.

(** [s.lower()] on UTF-8 text, exact on every ASCII character of the result.
    Besides the ASCII capitals, two characters have an ASCII letter in their
    lower case: U+212A KELVIN SIGN (bytes 226 132 170) becomes [k], and
    U+0130 (bytes 196 176) becomes [i] followed by U+0307 (bytes 204 135).
    Every other character outside ASCII is mapped by [str.lower] to
    characters outside ASCII; their bytes are left as they are, which no
    comparison with an ASCII word can tell. *)
Fixpoint lower_utf8 (s : string) : string :=
  match s with
  | EmptyString => EmptyString
  | String c s1 =>
      match s1 with
      | String d s2 =>
          if Ascii.eqb c "196" && Ascii.eqb d "176"
          then String "i" (String "204" (String "135" (lower_utf8 s2)))
          else
            match s2 with
            | String e s3 =>
                if Ascii.eqb c "226" && Ascii.eqb d "132" && Ascii.eqb e "170"
                then String "k" (lower_utf8 s3)
                else String (lower_char c) (lower_utf8 s1)
            | EmptyString => String (lower_char c) (lower_utf8 s1)
            end
      | EmptyString => String (lower_char c) EmptyString
      end
  end.

(** [needle in hay] *)
Fixpoint contains (needle hay : string) : bool :=
  match hay with
  | EmptyString => String.prefix needle EmptyString
  | String _ hay' => String.prefix needle hay || contains needle hay'
  end.

(** [s.split(c, 1)[1]] when [c in s], [None] when [c] does not occur. *)
Fixpoint after_first (c : ascii) (s : string) : option string :=
  match s with
  | EmptyString => None
  | String d s' => if Ascii.eqb d c then Some s' else after_first c s'
  end.

(** [s.lstrip("_")] *)
Fixpoint lstrip_underscore (s : string) : string :=
  match s with
  | EmptyString => EmptyString
  | String c s' => if is_underscore c then lstrip_underscore s' else s
  end.

(** [s.rstrip("_")] *)
Fixpoint rstrip_underscore (s : string) : string :=
  match s with
  | EmptyString => EmptyString
  | String c s' =>
      let r := rstrip_underscore s' in
      if is_underscore c && String.eqb r EmptyString then EmptyString
      else String c r
  end.

(** [s.strip("_")] *)
Definition strip_underscore (s : string) : string :=
  rstrip_underscore (lstrip_underscore s).

(** [s[n:]] *)
Fixpoint drop (n : nat) (s : string) : string :=
  match n, s with
  | O, _ => s
  | S _, EmptyString => EmptyString
  | S n', String _ s' => drop n' s'
  end.

(** [sep.join(parts)] *)
Fixpoint join (sep : string) (parts : list string) : string :=
  match parts with
  | [] => EmptyString
  | [p] => p
  | p :: rest => p +:+ sep +:+ join sep rest
  end.

(** [s * n] *)
Fixpoint repeat (s : string) (n : nat) : string :=
  match n with
  | O => EmptyString
  | S n' => s +:+ repeat s n'
  end.

End Str.

(** ** The identifier normalizer *)

(** [re.sub(r"[^0-9A-Za-z]+", "_", name)]: every maximal run of characters
    outside [[0-9A-Za-z]] becomes one underscore.  [in_run] records that the
    scan is inside a run whose underscore has already been emitted. *)
Fixpoint sub_non_alnum_runs (in_run : bool) (s : string) : string :=
  match s with
  | EmptyString => EmptyString
  | String c s' =>
      if Str.is_alnum c then String c (sub_non_alnum_runs false s')
      else if in_run then sub_non_alnum_runs true s'
      else String "_" (sub_non_alnum_runs true s')
  end.

(** [re.sub(r"([a-z0-9])([A-Z])", r"\1_\2", cleaned)]: scanning left to
    right, a lower-case letter or digit followed by an upper-case letter is a
    match; both characters are consumed and the scan resumes after them. *)
Fixpoint sub_camel_boundaries (s : string) : string :=
  match s with
  | EmptyString => EmptyString
  | String c s' =>
      match s' with
      | String d s'' =>
          if (Str.is_lower c || Str.is_digit c) && Str.is_upper d
          then String c (String "_" (String d (sub_camel_boundaries s'')))
          else String c (sub_camel_boundaries s')
      | EmptyString => String c EmptyString
      end
  end.

Definition _snake_case (name : string) : string :=
  let cleaned := sub_non_alnum_runs false name in
  let cleaned := sub_camel_boundaries cleaned in
  Str.lower (Str.strip_underscore cleaned).

(** ** Namespace stripping *)

Definition _strip_ns (tag_or_type : string) : string :=
  if String.eqb tag_or_type EmptyString then EmptyString
  else match Str.after_first "}" tag_or_type with
       | Some rest => rest
       | None =>
           match Str.after_first ":" tag_or_type with
           | Some rest => rest
           | None => tag_or_type
           end
       end.

(** ** Data model *)

Definition XSD_NS : string := "{http://www.w3.org/2001/XMLSchema}".

(** An XML element: its tag (with the namespace in braces), its attributes
    and its children in document order. *)
#[local] Unset Elimination Schemes.
Inductive Element : Type :=
  mkElement { tag : string; attrib : gmap string string; children : list Element }.
#[local] Set Elimination Schemes.

(** [node.get(key)] *)
Definition get (node : Element) (key : string) : option string :=
  attrib node !! key.

(** [node.get(key, default)] *)
Definition get_default (node : Element) (key dflt : string) : string :=
  default dflt (get node key).

(** [node.find(path)]: the first direct child whose tag is [path]. *)
Definition find (node : Element) (path : string) : option Element :=
  List.find (fun child => String.eqb (tag child) path) (children node).

(** [node.findall(path)]: the direct children whose tag is [path], in
    document order. *)
Definition findall (node : Element) (path : string) : list Element :=
  List.filter (fun child => String.eqb (tag child) path) (children node).

(** Python truthiness of an optional string: present and not empty. *)
Definition truthy (o : option string) : bool :=
  match o with
  | Some s => negb (String.eqb s EmptyString)
  | None => false
  end.

(** The type expression ([Expr]) and its fields ([Field]).  The source tags
    an [Expr] with a [kind] string and a payload; only the four kinds below
    are ever constructed. *)
#[local] Unset Elimination Schemes.
Inductive Expr : Type :=
  | Scalar (value : string)
  | Object (fields : list Field)
  | List (inner : Expr)
  | Optional (inner : Expr)
with Field : Type :=
  | mkField (name : string) (expr : Expr).
#[local] Set Elimination Schemes.

Definition kind (e : Expr) : string :=
  match e with
  | Scalar _ => "scalar"
  | Object _ => "object"
  | List _ => "list"
  | Optional _ => "optional"
  end.

Definition field_name (f : Field) : string := let (n, _) := f in n.
Definition field_expr (f : Field) : Expr := let (_, e) := f in e.

(** The compiler object: the text of the schema path, the document root, the
    schema index and the ignore set. *)
Record XSDSchemaCompiler : Type := mkCompiler {
  schema_path : string;
  root : Element;
  simple_types : gmap string Element;
  complex_types : gmap string Element;
  global_elements : gmap string Element;
  ignored_keys : gset string
}.

(** ** The schema index *)

(** One iteration of the loop of [_index_schema]. *)
Definition index_child (self : XSDSchemaCompiler) (child : Element) : XSDSchemaCompiler :=
  let local := _strip_ns (tag child) in
  let name := get child "name" in
  if negb (truthy name) then self
  else
    let name := default EmptyString name in
    if String.eqb local "simpleType" then
      mkCompiler (schema_path self) (root self)
        (<[name := child]> (simple_types self)) (complex_types self)
        (global_elements self) (ignored_keys self)
    else if String.eqb local "complexType" then
      mkCompiler (schema_path self) (root self)
        (simple_types self) (<[name := child]> (complex_types self))
        (global_elements self) (ignored_keys self)
    else if String.eqb local "element" then
      mkCompiler (schema_path self) (root self)
        (simple_types self) (complex_types self)
        (<[name := child]> (global_elements self)) (ignored_keys self)
    else self.

Definition _index_schema (self : XSDSchemaCompiler) : XSDSchemaCompiler :=
  foldl index_child self (children (root self)).

(** [s.split("/")] *)
Fixpoint split_slash (s : string) : list string :=
  match s with
  | EmptyString => [EmptyString]
  | String c s' =>
      if Ascii.eqb c "/" then EmptyString :: split_slash s'
      else match split_slash s' with
           | [] => [String c EmptyString]
           | part :: parts => String c part :: parts
           end
  end.

(** [str(Path(s))] on a POSIX system: empty and [.] components are dropped,
    the remaining ones are joined by one slash after the root, which is [/],
    or [//] when [s] starts with exactly two slashes; the empty path is [.]. *)
Definition Path_str (s : string) : string :=
  let anchor :=
    if String.prefix "//" s && negb (String.prefix "///" s) then "//"
    else if String.prefix "/" s then "/"
    else EmptyString in
  let parts :=
    List.filter (fun part => negb (String.eqb part EmptyString)
                             && negb (String.eqb part "."))
                (split_slash s) in
  let text := anchor +:+ Str.join "/" parts in
  if String.eqb text EmptyString then "." else text.

(** [XSDSchemaCompiler.__init__], after the document has been parsed: the
    schema path is kept as a [Path], of which only the text is used;
    [ignored] is the iterable of ignored keys ([None] is the empty list). *)
Definition init (path : string) (document : Element) (ignored : list string)
  : XSDSchemaCompiler :=
  _index_schema
    (mkCompiler (Path_str path) document ∅ ∅ ∅ (list_to_set ignored)).

(** ** The type resolver *)

(** The literal dictionary of [_builtin_scalar], as its key/value pairs. *)
Definition builtin_mapping : list (string * string) :=
  [ ("string", "string"); ("token", "string"); ("normalizedString", "string");
    ("integer", "int"); ("int", "int"); ("long", "int"); ("short", "int");
    ("nonNegativeInteger", "int"); ("positiveInteger", "int");
    ("boolean", "bool"); ("date", "date");
    ("gYear", "string"); ("gMonth", "string"); ("gDay", "string");
    ("anyURI", "string");
    ("decimal", "float"); ("double", "float"); ("float", "float") ].

(** [mapping.get(key, dflt)] on a literal dictionary with distinct keys. *)
Fixpoint dict_get (mapping : list (string * string)) (key dflt : string) : string :=
  match mapping with
  | [] => dflt
  | (k, v) :: rest => if String.eqb k key then v else dict_get rest key dflt
  end.

(** [key in mapping] on a literal dictionary or a literal set. *)
Definition member (key : string) (keys : list string) : bool :=
  existsb (String.eqb key) keys.

Definition _builtin_scalar (xsd_type : string) : string :=
  let t := _strip_ns xsd_type in
  dict_get builtin_mapping t "string".

(** The literal set tested by [_expr_for_type_name]. *)
Definition builtin_names : list string :=
  [ "string"; "integer"; "int"; "long"; "short"; "nonNegativeInteger";
    "positiveInteger"; "boolean"; "date"; "gYear"; "gMonth"; "gDay"; "anyURI";
    "decimal"; "double"; "float"; "token"; "normalizedString" ].

Definition _enum_values_from_simple_type (node : Element) : list string :=
  match find node (XSD_NS +:+ "restriction") with
  | None => []
  | Some restriction =>
      omap (fun enum_node => get enum_node "value")
           (findall restriction (XSD_NS +:+ "enumeration"))
  end.

(** [f'"{v}"'] *)
Definition dquote : string := String "034" EmptyString.
Definition quote (v : string) : string := dquote +:+ v +:+ dquote.

Definition _expr_for_simple_type (node : Element) : Expr :=
  let enums := _enum_values_from_simple_type node in
  match enums with
  | _ :: _ =>
      let quoted := Str.join ", " (quote <$> enums) in
      Scalar ("enum(" +:+ quoted +:+ ")")
  | [] =>
      match find node (XSD_NS +:+ "restriction") with
      | Some restriction =>
          if truthy (get restriction "base")
          then Scalar (_builtin_scalar (get_default restriction "base" "xs:string"))
          else Scalar "string"
      | None => Scalar "string"
      end
  end.

Definition _base_value_name (base_scalar context_name : string) : string :=
  let ctx := Str.lower_utf8 context_name in
  if Str.contains "name" ctx && String.eqb base_scalar "string" then "name"
  else if member ctx ["skill"] then "value"
  else if String.eqb base_scalar "structured_text"
       then (if member ctx ["technique"] then "text" else "content")
  else "value".

Definition _element_occurs_wrapped (expr : Expr) (node : Element) : Expr :=
  let min_occurs := get_default node "minOccurs" "1" in
  let max_occurs := get_default node "maxOccurs" "1" in
  let expr := if negb (String.eqb max_occurs "1") then List expr else expr in
  let expr := if String.eqb min_occurs "0" then Optional expr else expr in
  expr.

Section Resolver.

Variable self : XSDSchemaCompiler.

Definition _filter_fields (fields : list Field) : list Field :=
  List.filter (fun f => negb (bool_decide (field_name f ∈ ignored_keys self))) fields.

(** The first field of an extension's object: the base value, named by
    [_base_value_name] when the base is a scalar and [value] otherwise. *)
Definition base_field (base_expr : Expr) (context_name : string) : Field :=
  match base_expr with
  | Scalar value => mkField (_base_value_name value context_name) base_expr
  | _ => mkField "value" base_expr
  end.

(** The five mutually recursive methods.  Each call consumes one unit of
    fuel; [None] is the [RecursionError] raised when the fuel is used up. *)
Fixpoint _expr_for_type_name (fuel : nat) (type_name context_name : string)
  : option Expr :=
  match fuel with
  | O => None
  | S fuel =>
      let local := _strip_ns type_name in
      if String.prefix "xs:" type_name || member local builtin_names
      then Some (Scalar (_builtin_scalar type_name))
      else if String.eqb local "StructuredTextType"
      then Some (Scalar "structured_text")
      else match simple_types self !! local with
           | Some node => Some (_expr_for_simple_type node)
           | None =>
               match complex_types self !! local with
               | Some node => _expr_for_complex_type fuel node context_name
               | None => Some (Scalar "string")
               end
           end
  end

with _attribute_to_field (fuel : nat) (attr : Element) : option Field :=
  match fuel with
  | O => None
  | S fuel =>
      let name := _snake_case (get_default attr "name" "attribute") in
      let attr_type := get attr "type" in
      let inline_simple := find attr (XSD_NS +:+ "simpleType") in
      expr ←
        (if truthy attr_type
         then _expr_for_type_name fuel (default EmptyString attr_type) name
         else match inline_simple with
              | Some simple => Some (_expr_for_simple_type simple)
              | None => Some (Scalar "string")
              end);
      let required := bool_decide (get attr "use" = Some "required") in
      let expr := if negb required then Optional expr else expr in
      Some (mkField name expr)
  end

with _expr_for_element_content (fuel : nat) (node : Element) : option Expr :=
  match fuel with
  | O => None
  | S fuel =>
      let element_name := _snake_case (get_default node "name" "item") in
      let element_type := get node "type" in
      if truthy element_type
      then _expr_for_type_name fuel (default EmptyString element_type) element_name
      else match find node (XSD_NS +:+ "simpleType") with
           | Some inline_simple => Some (_expr_for_simple_type inline_simple)
           | None =>
               match find node (XSD_NS +:+ "complexType") with
               | Some inline_complex =>
                   _expr_for_complex_type fuel inline_complex element_name
               | None => Some (Scalar "string")
               end
           end
  end

with _element_to_field (fuel : nat) (node : Element) : option Field :=
  match fuel with
  | O => None
  | S fuel =>
      let name := _snake_case (get_default node "name" "item") in
      expr ← _expr_for_element_content fuel node;
      let expr := _element_occurs_wrapped expr node in
      Some (mkField name expr)
  end

with _expr_for_complex_type (fuel : nat) (node : Element) (context_name : string)
  : option Expr :=
  match fuel with
  | O => None
  | S fuel =>
      let extension_of content :=
        content ≫= fun c => find c (XSD_NS +:+ "extension") in
      match extension_of (find node (XSD_NS +:+ "complexContent")) with
      | Some extension =>
          let base := get_default extension "base" "xs:string" in
          base_expr ← _expr_for_type_name fuel base context_name;
          attrs ← mapM (_attribute_to_field fuel)
                       (findall extension (XSD_NS +:+ "attribute"));
          Some (Object (_filter_fields (base_field base_expr context_name :: attrs)))
      | None =>
      match extension_of (find node (XSD_NS +:+ "simpleContent")) with
      | Some extension =>
          let base := get_default extension "base" "xs:string" in
          base_expr ← _expr_for_type_name fuel base context_name;
          attrs ← mapM (_attribute_to_field fuel)
                       (findall extension (XSD_NS +:+ "attribute"));
          Some (Object (_filter_fields (base_field base_expr context_name :: attrs)))
      | None =>
          let attributes := findall node (XSD_NS +:+ "attribute") in
          match find node (XSD_NS +:+ "sequence") with
          | Some sequence =>
              let elements := findall sequence (XSD_NS +:+ "element") in
              let collapse :=
                match elements, attributes with
                | [child], [] =>
                    let child_min := get_default child "minOccurs" "1" in
                    let child_max := get_default child "maxOccurs" "1" in
                    if String.eqb child_min "1" && negb (String.eqb child_max "1")
                    then Some child else None
                | _, _ => None
                end in
              match collapse with
              | Some child =>
                  child_expr ← _expr_for_element_content fuel child;
                  Some (List child_expr)
              | None =>
                  fields ← mapM (_element_to_field fuel) elements;
                  attrs ← mapM (_attribute_to_field fuel) attributes;
                  Some (Object (_filter_fields (fields ++ attrs)))
              end
          | None =>
              attrs ← mapM (_attribute_to_field fuel) attributes;
              Some (Object (_filter_fields attrs))
          end
      end
      end
  end.

End Resolver.

(** ** The renderer *)

Definition indent_unit : string := "  ".
Definition newline : string := String "010" EmptyString.

Fixpoint _render_expr (expr : Expr) (indent : nat) {struct expr} : list string :=
  let pad := Str.repeat indent_unit indent in
  match expr with
  | Scalar value => [pad +:+ value]
  | Object fields =>
      let lines :=
        (fix extend (fs : list Field) : list string :=
           match fs with
           | [] => []
           | field :: fs' => _render_field field indent ++ extend fs'
           end) fields in
      match lines with
      | [] => [pad +:+ "{}"]
      | _ :: _ => lines
      end
  | List inner =>
      match inner with
      | Scalar value => [pad +:+ "list<" +:+ value +:+ ">"]
      | _ => [pad +:+ "list<"] ++ _render_expr inner (S indent) ++ [pad +:+ ">"]
      end
  | Optional inner =>
      match inner with
      | Scalar value => [pad +:+ "optional<" +:+ value +:+ ">"]
      | _ => [pad +:+ "optional<"] ++ _render_expr inner (S indent) ++ [pad +:+ ">"]
      end
  end

with _render_field (field : Field) (indent : nat) {struct field} : list string :=
  let pad := Str.repeat indent_unit indent in
  match field with
  | mkField name expr =>
      match expr with
      | Object _ => [pad +:+ name +:+ ":"] ++ _render_expr expr (S indent)
      | _ =>
          let rendered := _render_expr expr indent in
          let first :=
            match rendered with
            | line :: _ => Str.drop (String.length pad) line
            | [] => "string"
            end in
          [pad +:+ name +:+ ": " +:+ first] ++ tail rendered
      end
  end.

Definition render (root_name : string) (expr : Expr) : string :=
  match expr with
  | Object _ =>
      let lines := [root_name +:+ ":"] ++ _render_expr expr 1 in
      Str.join newline lines +:+ newline
  | _ =>
      let rendered := _render_expr expr 0 in
      let first := match rendered with line :: _ => line | [] => "string" end in
      let lines := [root_name +:+ ": " +:+ first] ++ tail rendered in
      Str.join newline lines +:+ newline
  end.

(** ** The root resolver *)

(** How a call ends: it returns a value, it raises [ValueError] with a
    message, or it raises [RecursionError] because the resolver methods nest
    deeper than the fuel, the interpreter's recursion limit, allows. *)
Inductive Outcome (A : Type) : Type :=
  | Returned (a : A)
  | ValueError (message : string)
  | RecursionError.
Arguments Returned {A} a.
Arguments ValueError {A} message.
Arguments RecursionError {A}.

Definition returned_or_recursion_error {A} (o : option A) : Outcome A :=
  match o with
  | Some a => Returned a
  | None => RecursionError
  end.

Definition aliases : list (string * string) :=
  [ ("attack_pattern", "AttackPatternType");
    ("weakness", "WeaknessType");
    ("attack_pattern_catalog", "Attack_Pattern_Catalog");
    ("weakness_catalog", "Weakness_Catalog") ].

(** The alias-resolved lookup key of [compile_root]. *)
Definition alias_lookup (root_identifier : string) : string :=
  if member root_identifier (aliases.*1)
  then dict_get aliases root_identifier root_identifier
  else root_identifier.

(** The message of the [ValueError] raised by [compile_root]; the two bytes
    195, 169 are the UTF-8 encoding of the accented e. *)
Definition not_found_message (root_identifier path : string) : string :=
  "Root '" +:+ root_identifier +:+ "' introuvable dans le sch"
  +:+ String "195" (String "169" "ma: ") +:+ path.

Definition compile_root (self : XSDSchemaCompiler) (fuel : nat)
    (root_identifier : string) : Outcome (string * Expr) :=
  let lookup := alias_lookup root_identifier in
  match global_elements self !! lookup with
  | Some root_element =>
      returned_or_recursion_error
        (expr ← _expr_for_element_content self fuel root_element;
         let name := _snake_case root_identifier in
         Some (name, expr))
  | None =>
      match complex_types self !! lookup with
      | Some node =>
          returned_or_recursion_error
            (expr ← _expr_for_complex_type self fuel node lookup;
             let name := _snake_case root_identifier in
             Some (name, expr))
      | None =>
          ValueError (not_found_message root_identifier (schema_path self))
      end
  end.

(** [parse] without its file-system effects: [document] is the parsed schema
    at [input_path], [ignored] the keys read from the ignore file; the result
    is the name of the output file and the text written to it. *)
Definition parse (fuel : nat) (input_path : string) (document : Element)
    (root_identifier : string) (ignored : list string)
  : Outcome (string * string) :=
  let compiler := init input_path document ignored in
  match compile_root compiler fuel root_identifier with
  | Returned (root_name, expr) =>
      let rendered := render root_name expr in
      Returned (root_name +:+ ".schema.txt", rendered)
  | ValueError message => ValueError message
  | RecursionError => RecursionError
  end.

(** * Auxiliary definitions used in the statements *)

(** [shaped after_us s]: every character of [s] is alphanumeric or an
    underscore, and no underscore follows an underscore; [after_us] says that
    the character before [s] is an underscore (or that [s] starts the
    string and may not start with one). *)
Fixpoint shaped (after_us : bool) (s : string) : bool :=
  match s with
  | EmptyString => true
  | String c s' =>
      if Str.is_alnum c then shaped false s'
      else Str.is_underscore c && negb after_us && shaped true s'
  end.

Fixpoint no_upper (s : string) : bool :=
  match s with
  | EmptyString => true
  | String c s' => negb (Str.is_upper c) && no_upper s'
  end.

(** [declares kind name child]: [child] is a top-level declaration of tag
    [kind] whose [name] attribute is the non-empty string [name]. *)
Definition declares (kind name : string) (child : Element) : bool :=
  String.eqb (_strip_ns (tag child)) kind
  && truthy (get child "name")
  && bool_decide (get child "name" = Some name).

(** An occurrence bound that allows more than one item: [unbounded], or a
    decimal numeral greater than one. *)
Definition occurs_above_one (bound : string) : bool :=
  String.eqb bound "unbounded"
  || match NilEmpty.uint_of_string bound with
     | Some digits => (1 <? Nat.of_uint digits)%nat
     | None => false
     end.

(** The number that an occurrence bound denotes, when it is a decimal
    numeral. *)
Definition occurs_value (bound : string) : option nat :=
  Nat.of_uint <$> NilEmpty.uint_of_string bound.

(** The wrapping that the raw occurrence attributes call for: a list unless
    [maxOccurs] is absent or the string ["1"], then an optional when
    [minOccurs] is the string ["0"]. *)
Definition raw_occurs_wrapping (min_occurs max_occurs : option string)
    (inner : Expr) : Expr :=
  let listed :=
    if bool_decide (max_occurs = None ∨ max_occurs = Some "1")
    then inner else List inner in
  if bool_decide (min_occurs = Some "0") then Optional listed else listed.

(** The expression of an attribute before the [use] test: the first half of
    [_attribute_to_field]. *)
Definition attribute_type_expr (self : XSDSchemaCompiler) (fuel : nat)
    (attr : Element) : option Expr :=
  let name := _snake_case (get_default attr "name" "attribute") in
  if truthy (get attr "type")
  then _expr_for_type_name self fuel (default EmptyString (get attr "type")) name
  else match find attr (XSD_NS +:+ "simpleType") with
       | Some simple => Some (_expr_for_simple_type simple)
       | None => Some (Scalar "string")
       end.

(** The extension that [_expr_for_complex_type] acts on: the one of the
    complex content when there is one, else the one of the simple content. *)
Definition extension_of (node : Element) : option Element :=
  match find node (XSD_NS +:+ "complexContent")
          ≫= fun c => find c (XSD_NS +:+ "extension") with
  | Some extension => Some extension
  | None => find node (XSD_NS +:+ "simpleContent")
              ≫= fun c => find c (XSD_NS +:+ "extension")
  end.

(** ** Acyclic type references *)

(** A node and everything below it, in document order. *)
Fixpoint descendants (node : Element) : list Element :=
  match node with
  | mkElement _ _ nodes =>
      node :: (fix over (rest : list Element) : list Element :=
                 match rest with
                 | [] => []
                 | child :: rest' => descendants child ++ over rest'
                 end) nodes
  end.

(** The type references a node carries itself: its [type] and [base]
    attributes. *)
Definition own_refs (node : Element) : list string :=
  option_list (get node "type") ++ option_list (get node "base").

(** Every type reference that occurs in a node or below it. *)
Definition type_refs (node : Element) : list string :=
  flat_map own_refs (descendants node).

(** The complex type that [_expr_for_type_name] descends into for a type
    reference, if any: the reference is not a builtin, not the structured
    text type, not a simple type of the index, and names a complex type. *)
Definition complex_target (self : XSDSchemaCompiler) (type_name : string)
  : option string :=
  let local := _strip_ns type_name in
  if String.prefix "xs:" type_name || member local builtin_names then None
  else if String.eqb local "StructuredTextType" then None
  else match simple_types self !! local with
       | Some _ => None
       | None =>
           match complex_types self !! local with
           | Some _ => Some local
           | None => None
           end
       end.

(** Every complex type referred to in or below [node] has a rank below
    [bound]. *)
Definition ranked_below (self : XSDSchemaCompiler) (rank : string → nat)
    (bound : nat) (node : Element) : bool :=
  forallb (fun type_name =>
             match complex_target self type_name with
             | Some name => (rank name <? bound)%nat
             | None => true
             end) (type_refs node).

(** The type references of the index are acyclic: [rank] orders the complex
    types so that each of them refers only to complex types of a lower rank. *)
Definition acyclic (self : XSDSchemaCompiler) (rank : string → nat) : bool :=
  forallb (fun entry : string * Element =>
             ranked_below self rank (rank entry.1) entry.2)
          (map_to_list (complex_types self)).

(** A run of a resolver method on [node] returns within [fuel] calls,
    whichever of the four methods that take a node is called. *)
Definition resolves (self : XSDSchemaCompiler) (fuel : nat) (node : Element) : Prop :=
  (∀ context_name, is_Some (_expr_for_complex_type self fuel node context_name)) ∧
  is_Some (_attribute_to_field self fuel node) ∧
  is_Some (_expr_for_element_content self fuel node) ∧
  is_Some (_element_to_field self fuel node).

(** Every result that the five methods give with [fuel] they also give with
    [fuel']. *)
Definition preserved (self : XSDSchemaCompiler) (fuel fuel' : nat) : Prop :=
  (∀ type_name context_name expr,
     _expr_for_type_name self fuel type_name context_name = Some expr →
     _expr_for_type_name self fuel' type_name context_name = Some expr) ∧
  (∀ attr field,
     _attribute_to_field self fuel attr = Some field →
     _attribute_to_field self fuel' attr = Some field) ∧
  (∀ node expr,
     _expr_for_element_content self fuel node = Some expr →
     _expr_for_element_content self fuel' node = Some expr) ∧
  (∀ node field,
     _element_to_field self fuel node = Some field →
     _element_to_field self fuel' node = Some field) ∧
  (∀ node context_name expr,
     _expr_for_complex_type self fuel node context_name = Some expr →
     _expr_for_complex_type self fuel' node context_name = Some expr).

(** ** Sample schema documents *)

Module Sample.

(** An element of the XML-Schema namespace. *)
Definition xs (local : string) (attrs : list (string * string))
    (nodes : list Element) : Element :=
  mkElement (XSD_NS +:+ local) (list_to_map attrs) nodes.

(** Two top-level simple types with the same name. *)
Definition first_decl : Element :=
  xs "simpleType" [("name", "Level")] [].
Definition second_decl : Element :=
  xs "simpleType" [("name", "Level")]
     [xs "restriction" [("base", "xs:integer")] []].
Definition redeclared : Element := xs "schema" [] [first_decl; second_decl].

(** A wrapper type whose only child is a repeatable element. *)
Definition example_instance : Element :=
  xs "element" [("name", "Example_Instance"); ("type", "xs:string");
                ("maxOccurs", "unbounded")] [].
Definition examples_type : Element :=
  xs "complexType" [("name", "ExamplesType")]
     [xs "sequence" [] [example_instance]].

(** An optional, repeatable element. *)
Definition optional_many : Element :=
  xs "element" [("name", "Note"); ("type", "xs:string");
                ("minOccurs", "0"); ("maxOccurs", "unbounded")] [].

(** The same two declarations with [minOccurs] written with a leading
    zero. *)
Definition padded_optional_many : Element :=
  xs "element" [("name", "Note"); ("type", "xs:string");
                ("minOccurs", "00"); ("maxOccurs", "unbounded")] [].
Definition padded_example_instance : Element :=
  xs "element" [("name", "Example_Instance"); ("type", "xs:string");
                ("minOccurs", "01"); ("maxOccurs", "unbounded")] [].
Definition padded_examples_type : Element :=
  xs "complexType" [("name", "ExamplesType")]
     [xs "sequence" [] [padded_example_instance]].

(** A severity enumeration. *)
Definition severity : Element :=
  xs "simpleType" [("name", "SeverityType")]
     [xs "restriction" [("base", "xs:string")]
         [xs "enumeration" [("value", "High")] [];
          xs "enumeration" [("value", "Medium")] [];
          xs "enumeration" [("value", "Low")] []]].

(** A required and an optional attribute. *)
Definition level_attribute : Element :=
  xs "attribute" [("name", "Level"); ("type", "SeverityType");
                  ("use", "required")] [].
Definition note_attribute : Element :=
  xs "attribute" [("name", "Note"); ("type", "xs:string");
                  ("use", "optional")] [].

(** Simple content extending a string, with a required attribute. *)
Definition skill_extension : Element :=
  xs "extension" [("base", "xs:string")] [level_attribute].
Definition skill_type : Element :=
  xs "complexType" [("name", "SkillType")]
     [xs "simpleContent" [] [skill_extension]].

(** Simple content extending an integer. *)
Definition count_type : Element :=
  xs "complexType" [("name", "CountType")]
     [xs "simpleContent" [] [xs "extension" [("base", "xs:integer")] []]].

(** An attack pattern that uses the types above. *)
Definition attack_pattern_type : Element :=
  xs "complexType" [("name", "AttackPatternType")]
     [xs "sequence" []
         [xs "element" [("name", "Description"); ("type", "StructuredTextType");
                        ("minOccurs", "0")] [];
          xs "element" [("name", "Examples"); ("type", "ExamplesType");
                        ("minOccurs", "0")] [];
          xs "element" [("name", "Skill"); ("type", "SkillType");
                        ("maxOccurs", "unbounded")] []];
      xs "attribute" [("name", "ID"); ("type", "xs:integer");
                      ("use", "required")] []].

Definition catalog : Element :=
  xs "schema" []
     [examples_type; severity; skill_type; count_type; attack_pattern_type].

(** The rank of the complex types of [catalog]. *)
Definition catalog_rank (name : string) : nat :=
  if String.eqb name "AttackPatternType" then 1 else 0.

(** A complex type that refers to itself. *)
Definition tree_child : Element :=
  xs "element" [("name", "Child"); ("type", "TreeType"); ("minOccurs", "0")] [].
Definition tree_sequence : Element := xs "sequence" [] [tree_child].
Definition tree_type : Element :=
  xs "complexType" [("name", "TreeType")] [tree_sequence].
Definition forest : Element := xs "schema" [] [tree_type].

End Sample.

(** * The rest of the pipeline *)

(** ** Whitespace and lines

    [str.strip], [str.lstrip] and [str.splitlines] on ASCII text, that is on
    the strings that satisfy [is_ascii]: there the white-space characters are
    the codes 9 to 13, 28 to 31 and 32, the line boundaries the codes 10 to 13
    and 28 to 30, with a carriage return followed by a line feed counting as
    one boundary.  Outside ASCII Python knows further white space and line
    boundaries (U+0085, U+00A0, U+2028 and others), which these functions do
    not model: every statement about them is restricted to ASCII text. *)

Module Lines.

Definition is_space (c : ascii) : bool :=
  let n := nat_of_ascii c in
  ((9 <=? n)%nat && (n <=? 13)%nat) || ((28 <=? n)%nat && (n <=? 32)%nat).

Definition is_linebreak (c : ascii) : bool :=
  let n := nat_of_ascii c in
  ((10 <=? n)%nat && (n <=? 13)%nat) || ((28 <=? n)%nat && (n <=? 30)%nat).

(** [c in s] for a character [c] *)
Fixpoint occurs (c : ascii) (s : string) : bool :=
  match s with
  | EmptyString => false
  | String d s' => Ascii.eqb d c || occurs c s'
  end.

(** No character of [s] satisfies [p]. *)
Fixpoint free_of (p : ascii → bool) (s : string) : bool :=
  match s with
  | EmptyString => true
  | String c s' => negb (p c) && free_of p s'
  end.

Definition non_ascii (c : ascii) : bool := (128 <=? nat_of_ascii c)%nat.

(** Every character of [s] is ASCII. *)
Definition is_ascii (s : string) : bool := free_of non_ascii s.

(** [s] is ASCII text without a line boundary. *)
Definition plain (s : string) : bool :=
  free_of (fun c => is_linebreak c || non_ascii c) s.

(** [s.lstrip()] on ASCII text *)
Fixpoint lstrip (s : string) : string :=
  match s with
  | EmptyString => EmptyString
  | String c s' => if is_space c then lstrip s' else s
  end.

(** [s.rstrip()] on ASCII text *)
Fixpoint rstrip (s : string) : string :=
  match s with
  | EmptyString => EmptyString
  | String c s' =>
      let r := rstrip s' in
      if is_space c && String.eqb r EmptyString then EmptyString
      else String c r
  end.

(** [s.strip()] on ASCII text *)
Definition strip (s : string) : string := rstrip (lstrip s).

(** [s.lstrip(" ")] *)
Fixpoint lstrip_spaces (s : string) : string :=
  match s with
  | EmptyString => EmptyString
  | String c s' => if Ascii.eqb c " " then lstrip_spaces s' else s
  end.

(** [s.splitlines()] on ASCII text: the lines of [s] without their
    boundaries; a boundary at the very end does not open a last, empty
    line. *)
Fixpoint splitlines (s : string) : list string :=
  match s with
  | EmptyString => []
  | String c s' =>
      if Ascii.eqb c "013" then
        match s' with
        | String "010" s'' => EmptyString :: splitlines s''
        | _ => EmptyString :: splitlines s'
        end
      else if is_linebreak c then EmptyString :: splitlines s'
      else match splitlines s' with
           | [] => [String c EmptyString]
           | line :: rest => String c line :: rest
           end
  end.

End Lines.

(** ** The ignore file *)

(** [_read_ignored_keys]: [file] is the text of the ignore file, [None] when
    no path was given or no file exists at the path. *)
Definition _read_ignored_keys (file : option string) : gset string :=
  match file with
  | None => ∅
  | Some text =>
      foldl (fun (ignored : gset string) raw =>
               let line := Lines.strip raw in
               if String.eqb line EmptyString || String.prefix "#" line
               then ignored
               else {[ _snake_case line ]} ∪ ignored)
            ∅ (Lines.splitlines text)
  end.

(** ** From pseudo-schema text to a mind map *)

(** One iteration of the loop of [schema_txt_to_puml]: the line appended for
    [raw], if any. *)
Definition puml_line (raw : string) : option string :=
  if String.eqb (Lines.strip raw) EmptyString then None
  else
    let indent_spaces := String.length raw - String.length (Lines.lstrip_spaces raw) in
    let level := indent_spaces / 2 in
    let stars := Str.repeat "*" (level + 1) in
    Some (stars +:+ " " +:+ Lines.strip raw).

(** [schema_txt_to_puml] without its file-system effects: from the text of
    the schema file to the text of the mind-map file. *)
Definition schema_txt_to_puml (text : string) (title : option string) : string :=
  let lines := Lines.splitlines text in
  let puml_lines :=
    ["@startmindmap"]
    ++ (if truthy title then ["title " +:+ default EmptyString title] else [])
    ++ omap puml_line lines
    ++ ["@endmindmap"] in
  Str.join newline puml_lines +:+ newline.

(** ** Predicates on type expressions *)

(** Every scalar of [e] satisfies [on_scalar] and every field name of [e]
    satisfies [on_name]. *)
Fixpoint expr_forall (on_scalar on_name : string → bool) (e : Expr) : bool :=
  match e with
  | Scalar value => on_scalar value
  | Object fields =>
      (fix all (fs : list Field) : bool :=
         match fs with
         | [] => true
         | mkField name expr :: fs' =>
             on_name name && expr_forall on_scalar on_name expr && all fs'
         end) fields
  | List inner => expr_forall on_scalar on_name inner
  | Optional inner => expr_forall on_scalar on_name inner
  end.

Definition is_optional (e : Expr) : bool :=
  match e with
  | Optional _ => true
  | _ => false
  end.

(** No [Optional] stands directly inside a [List] or an [Optional]. *)
Fixpoint nesting_ok (e : Expr) : bool :=
  match e with
  | Scalar _ => true
  | Object fields =>
      (fix all (fs : list Field) : bool :=
         match fs with
         | [] => true
         | mkField _ expr :: fs' => nesting_ok expr && all fs'
         end) fields
  | List inner => negb (is_optional inner) && nesting_ok inner
  | Optional inner => negb (is_optional inner) && nesting_ok inner
  end.

(** The scalar kinds of the pseudo-schema: the six keywords, or an
    enumeration descriptor. *)
Definition scalar_kind (value : string) : bool :=
  member value ["string"; "int"; "bool"; "date"; "float"; "structured_text"]
  || String.prefix "enum(" value.

(** A name that the normalizer leaves unchanged. *)
Definition normalized (name : string) : bool :=
  String.eqb (_snake_case name) name.

(** The same compiler with another ignore set. *)
Definition with_ignored (self : XSDSchemaCompiler) (ignored : gset string)
  : XSDSchemaCompiler :=
  mkCompiler (schema_path self) (root self) (simple_types self)
    (complex_types self) (global_elements self) ignored.

(** [prune ignored e]: [e] without the fields named in [ignored], at every
    depth. *)
Fixpoint prune (ignored : gset string) (e : Expr) : Expr :=
  match e with
  | Scalar value => Scalar value
  | Object fields =>
      Object
        ((fix keep (fs : list Field) : list Field :=
            match fs with
            | [] => []
            | mkField name expr :: fs' =>
                if bool_decide (name ∈ ignored) then keep fs'
                else mkField name (prune ignored expr) :: keep fs'
            end) fields)
  | List inner => List (prune ignored inner)
  | Optional inner => Optional (prune ignored inner)
  end.

Definition prune_field (ignored : gset string) (f : Field) : Field :=
  mkField (field_name f) (prune ignored (field_expr f)).

(** The lines that [render] joins. *)
Definition render_lines (root_name : string) (expr : Expr) : list string :=
  match expr with
  | Object _ => [root_name +:+ ":"] ++ _render_expr expr 1
  | _ =>
      let rendered := _render_expr expr 0 in
      let first := match rendered with line :: _ => line | [] => "string" end in
      [root_name +:+ ": " +:+ first] ++ tail rendered
  end.

(** A line that holds a colon, an angle bracket or an opening brace. *)
Definition marked (line : string) : bool :=
  Lines.occurs ":" line || Lines.occurs "<" line || Lines.occurs ">" line
  || Lines.occurs "{" line.

Definition is_scalar (e : Expr) : bool :=
  match e with
  | Scalar _ => true
  | _ => false
  end.

(** The expression of an outcome of [compile_root], without the name. *)
Definition outcome_expr (o : Outcome (string * Expr)) : Outcome Expr :=
  match o with
  | Returned (_, expr) => Returned expr
  | ValueError message => ValueError message
  | RecursionError => RecursionError
  end.

(** * Properties *)

(** ** The identifier normalizer is idempotent *)

Module Normalizer.

Lemma underscore_not_alnum c : Str.is_underscore c = true → Str.is_alnum c = false.
Proof.
  unfold Str.is_underscore. intros H%Ascii.eqb_eq. by subst c.
Qed.

Lemma lower_char_alnum c : Str.is_alnum c = true → Str.is_alnum (Str.lower_char c) = true.
Proof. destruct c as [[] [] [] [] [] [] [] []]; vm_compute; congruence. Qed.

Lemma lower_char_not_alnum c : Str.is_alnum c = false → Str.lower_char c = c.
Proof. destruct c as [[] [] [] [] [] [] [] []]; vm_compute; congruence. Qed.

Lemma lower_char_not_upper c : Str.is_upper (Str.lower_char c) = false.
Proof. destruct c as [[] [] [] [] [] [] [] []]; vm_compute; congruence. Qed.

Lemma lower_char_fixed c : Str.is_upper c = false → Str.lower_char c = c.
Proof. unfold Str.lower_char. by intros ->. Qed.

Lemma lower_char_underscore c :
  Str.is_underscore (Str.lower_char c) = Str.is_underscore c.
Proof. destruct c as [[] [] [] [] [] [] [] []]; vm_compute; congruence. Qed.

Lemma upper_alnum c : Str.is_upper c = true → Str.is_alnum c = true.
Proof. unfold Str.is_alnum. intros ->. by rewrite orb_true_r. Qed.

Lemma lower_or_digit_alnum c :
  Str.is_lower c || Str.is_digit c = true → Str.is_alnum c = true.
Proof.
  unfold Str.is_alnum.
  destruct (Str.is_lower c), (Str.is_digit c), (Str.is_upper c); naive_solver.
Qed.

Lemma shaped_cons b c s :
  shaped b (String c s) =
  if Str.is_alnum c then shaped false s
  else Str.is_underscore c && negb b && shaped true s.
Proof. done. Qed.

Lemma shaped_weaken b s : shaped b s = true → shaped false s = true.
Proof.
  destruct s as [|c s]; cbn [shaped]; [done|].
  destruct (Str.is_alnum c); [done|].
  destruct b; [by rewrite andb_false_r | done].
Qed.

(** Stage 1: collapsing the runs gives a shaped string, and leaves a shaped
    string alone. *)
Lemma shaped_sub_non_alnum_runs b s : shaped b (sub_non_alnum_runs b s) = true.
Proof.
  revert b. induction s as [|c s IH]; intros b; cbn [sub_non_alnum_runs]; [done|].
  destruct (Str.is_alnum c) eqn:Hc.
  - cbn [shaped]. by rewrite Hc.
  - destruct b; [done|]. cbn [shaped]. by rewrite IH.
Qed.

Lemma sub_non_alnum_runs_fixed b s :
  shaped b s = true → sub_non_alnum_runs b s = s.
Proof.
  revert b. induction s as [|c s IH]; intros b; cbn [shaped sub_non_alnum_runs]; [done|].
  destruct (Str.is_alnum c) eqn:Hc.
  - intros H. by rewrite (IH _ H).
  - intros [[Hu Hb]%andb_prop Hs]%andb_prop.
    destruct b; [done|]. rewrite (IH _ Hs).
    apply Ascii.eqb_eq in Hu. by subst c.
Qed.

(** Stage 2: the inserted underscores stand between two alphanumerics. *)
Lemma shaped_sub_camel_boundaries s :
  (∀ b, shaped b s = true → shaped b (sub_camel_boundaries s) = true) ∧
  (∀ c b, shaped b (String c s) = true →
          shaped b (sub_camel_boundaries (String c s)) = true).
Proof.
  induction s as [|d s [IH1 IH2]]; split; try done.
  - by apply IH2.
  - intros c b. cbn [sub_camel_boundaries].
    destruct ((Str.is_lower c || Str.is_digit c) && Str.is_upper d) eqn:Hm.
    + apply andb_prop in Hm as [Hc%lower_or_digit_alnum Hd%upper_alnum].
      cbn [shaped]. rewrite Hc, Hd. cbn. apply IH1.
    + rewrite !(shaped_cons _ c).
      destruct (Str.is_alnum c).
      * apply (IH2 d false).
      * intros [Hb H]%andb_prop. rewrite Hb. apply (IH2 d true H).
Qed.

Lemma sub_camel_boundaries_fixed s :
  (no_upper s = true → sub_camel_boundaries s = s) ∧
  (∀ c, no_upper (String c s) = true →
        sub_camel_boundaries (String c s) = String c s).
Proof.
  induction s as [|d s [IH1 IH2]]; split; try done.
  - by apply IH2.
  - intros c. cbn [sub_camel_boundaries no_upper].
    intros [_ [Hd Hs]%andb_prop]%andb_prop.
    apply negb_true_iff in Hd. rewrite Hd, andb_false_r.
    f_equal. apply IH2. cbn [no_upper]. by rewrite Hd, Hs.
Qed.

(** Stage 3: stripping. *)
Lemma shaped_lstrip b s :
  shaped b s = true → shaped true (Str.lstrip_underscore s) = true.
Proof.
  revert b. induction s as [|c s IH]; intros b; cbn [Str.lstrip_underscore]; [done|].
  destruct (Str.is_underscore c) eqn:Hu.
  - cbn [shaped]. rewrite (underscore_not_alnum _ Hu).
    intros [_ H]%andb_prop. by apply (IH true).
  - cbn [shaped]. rewrite Hu. by destruct (Str.is_alnum c).
Qed.

Lemma lstrip_fixed s : shaped true s = true → Str.lstrip_underscore s = s.
Proof.
  destruct s as [|c s]; cbn [shaped Str.lstrip_underscore]; [done|].
  destruct (Str.is_underscore c) eqn:Hu; [|done].
  rewrite (underscore_not_alnum _ Hu). by rewrite andb_false_r.
Qed.

Lemma shaped_rstrip b s :
  shaped b s = true → shaped b (Str.rstrip_underscore s) = true.
Proof.
  revert b. induction s as [|c s IH]; intros b; cbn [Str.rstrip_underscore]; [done|].
  cbn zeta.
  destruct (Str.is_underscore c && String.eqb (Str.rstrip_underscore s) EmptyString);
    [done|].
  cbn [shaped]. destruct (Str.is_alnum c); [apply IH|].
  intros [Hb H]%andb_prop. rewrite Hb. by apply IH.
Qed.

Lemma rstrip_idempotent s :
  Str.rstrip_underscore (Str.rstrip_underscore s) = Str.rstrip_underscore s.
Proof.
  induction s as [|c s IH]; cbn [Str.rstrip_underscore]; [done|]. cbn zeta.
  destruct (Str.is_underscore c && String.eqb (Str.rstrip_underscore s) EmptyString)
    eqn:Hc; [done|].
  cbn [Str.rstrip_underscore]. cbn zeta. by rewrite IH, Hc.
Qed.

(** Stage 4: lower-casing. *)
Lemma shaped_lower b s : shaped b s = true → shaped b (Str.lower s) = true.
Proof.
  revert b. induction s as [|c s IH]; intros b; cbn [shaped Str.lower]; [done|].
  destruct (Str.is_alnum c) eqn:Hc.
  - rewrite (lower_char_alnum _ Hc). apply IH.
  - rewrite (lower_char_not_alnum _ Hc), Hc.
    intros [Hb H]%andb_prop. rewrite Hb. by apply IH.
Qed.

Lemma no_upper_lower s : no_upper (Str.lower s) = true.
Proof.
  induction s as [|c s IH]; cbn [no_upper Str.lower]; [done|].
  by rewrite lower_char_not_upper, IH.
Qed.

Lemma lower_fixed s : no_upper s = true → Str.lower s = s.
Proof.
  induction s as [|c s IH]; cbn [no_upper Str.lower]; [done|].
  intros [Hc%negb_true_iff Hs]%andb_prop.
  by rewrite (lower_char_fixed _ Hc), (IH Hs).
Qed.

Lemma lower_empty s : String.eqb (Str.lower s) EmptyString = String.eqb s EmptyString.
Proof. by destruct s. Qed.

Lemma rstrip_lower s :
  Str.rstrip_underscore (Str.lower s) = Str.lower (Str.rstrip_underscore s).
Proof.
  induction s as [|c s IH]; cbn [Str.rstrip_underscore Str.lower]; [done|]. cbn zeta.
  rewrite IH, lower_empty, lower_char_underscore.
  by destruct (Str.is_underscore c && String.eqb (Str.rstrip_underscore s) EmptyString).
Qed.

(** The normalizer's results: shaped, without a leading underscore, without
    an upper-case letter, and unchanged by stripping on the right. *)
Lemma snake_case_shaped name : shaped true (_snake_case name) = true.
Proof.
  unfold _snake_case, Str.strip_underscore.
  apply shaped_lower, shaped_rstrip, (shaped_lstrip false).
  apply shaped_sub_camel_boundaries, shaped_sub_non_alnum_runs.
Qed.

Lemma snake_case_rstrip name :
  Str.rstrip_underscore (_snake_case name) = _snake_case name.
Proof.
  unfold _snake_case, Str.strip_underscore.
  by rewrite rstrip_lower, rstrip_idempotent.
Qed.

Lemma snake_case_fixed s :
  shaped true s = true → no_upper s = true → Str.rstrip_underscore s = s →
  _snake_case s = s.
Proof.
  intros Hs Hu Hr. unfold _snake_case, Str.strip_underscore.
  rewrite (sub_non_alnum_runs_fixed false s (shaped_weaken _ _ Hs)).
  rewrite (proj1 (sub_camel_boundaries_fixed s) Hu).
  by rewrite (lstrip_fixed _ Hs), Hr, (lower_fixed _ Hu).
Qed.

(** C8: the identifier normalizer is a total function that is idempotent,
    [normalize (normalize x) = normalize x] for every input string [x], and
    the empty input yields the empty string. *)
Theorem snake_case_idempotent :
  (∀ x : string, _snake_case (_snake_case x) = _snake_case x) ∧
  _snake_case EmptyString = EmptyString.
Proof.
  split; [|done].
  intros x. apply snake_case_fixed.
  - apply snake_case_shaped.
  - unfold _snake_case. apply no_upper_lower.
  - apply snake_case_rstrip.
Qed.

End Normalizer.

(** ** The schema index *)

Module Index.

Lemma index_child_schema_path self child :
  schema_path (index_child self child) = schema_path self.
Proof. unfold index_child. by repeat case_match. Qed.

Lemma index_child_ignored_keys self child :
  ignored_keys (index_child self child) = ignored_keys self.
Proof. unfold index_child. by repeat case_match. Qed.

(** What one iteration does to each of the three dictionaries. *)
Lemma index_child_lookup self child name :
  simple_types (index_child self child) !! name =
    (if declares "simpleType" name child then Some child
     else simple_types self !! name) ∧
  complex_types (index_child self child) !! name =
    (if declares "complexType" name child then Some child
     else complex_types self !! name) ∧
  global_elements (index_child self child) !! name =
    (if declares "element" name child then Some child
     else global_elements self !! name).
Proof.
  unfold index_child, declares.
  destruct (get child "name") as [n|] eqn:Hn; cbn [truthy negb default];
    [|by rewrite !andb_false_r].
  destruct (String.eqb n EmptyString) eqn:He; cbn [negb];
    [by rewrite !andb_false_r|].
  rewrite !andb_true_r.
  set (t := _strip_ns (tag child)).
  destruct (String.eqb_spec t "simpleType") as [Ht|H1];
    [rewrite Ht
    |destruct (String.eqb_spec t "complexType") as [Ht|H2];
      [rewrite Ht
      |destruct (String.eqb_spec t "element") as [Ht|H3]]];
    cbn -[insert lookup]; repeat split; try done;
    (case_bool_decide as Hd;
     [injection Hd as ->; by rewrite lookup_insert_eq
     |rewrite lookup_insert_ne; [done|congruence]]).
Qed.

(** The last element of a filtered list, one element at a time. *)
Lemma last_filter_cons {A} (P : A → bool) (x : A) (l : list A) :
  list.last (List.filter P (x :: l)) =
  match list.last (List.filter P l) with
  | Some y => Some y
  | None => if P x then Some x else None
  end.
Proof.
  cbn [List.filter]. destruct (P x); [|by destruct (list.last _)].
  apply list.last_cons.
Qed.

Lemma foldl_index_child_lookup nodes self name :
  simple_types (foldl index_child self nodes) !! name =
    from_option Some (simple_types self !! name)
      (list.last (List.filter (declares "simpleType" name) nodes)) ∧
  complex_types (foldl index_child self nodes) !! name =
    from_option Some (complex_types self !! name)
      (list.last (List.filter (declares "complexType" name) nodes)) ∧
  global_elements (foldl index_child self nodes) !! name =
    from_option Some (global_elements self !! name)
      (list.last (List.filter (declares "element" name) nodes)).
Proof.
  revert self. induction nodes as [|child nodes IH]; intros self; [done|].
  cbn [foldl]. destruct (IH (index_child self child)) as (-> & -> & ->).
  destruct (index_child_lookup self child name) as (-> & -> & ->).
  rewrite !last_filter_cons.
  repeat split; by repeat case_match.
Qed.

(** C6, as the code has it: when several top-level children declare the
    same non-empty name under the same tag kind, the index keeps the last of
    them in document order; a name that no child declares is not found. *)
Theorem index_last_occurrence_wins
    (path : string) (document : Element) (ignored : list string) (name : string) :
  let self := init path document ignored in
  simple_types self !! name =
    list.last (List.filter (declares "simpleType" name) (children document)) ∧
  complex_types self !! name =
    list.last (List.filter (declares "complexType" name) (children document)) ∧
  global_elements self !! name =
    list.last (List.filter (declares "element" name) (children document)).
Proof.
  cbn zeta. unfold init, _index_schema. cbn [root].
  destruct (foldl_index_child_lookup (children document)
              (mkCompiler (Path_str path) document ∅ ∅ ∅ (list_to_set ignored))
              name)
    as (-> & -> & ->).
  cbn [simple_types complex_types global_elements]. rewrite !lookup_empty.
  repeat split; by destruct (list.last _).
Qed.

(** C6, as stated, fails: of two simple types named [Level] the index
    returns the second one, not the first. *)
Lemma index_first_occurrence_overwritten :
  let self := init "capec.xsd" Sample.redeclared [] in
  List.filter (declares "simpleType" "Level") (children Sample.redeclared)
    = [Sample.first_decl; Sample.second_decl] ∧
  simple_types self !! "Level" = Some Sample.second_decl ∧
  simple_types self !! "Level" ≠ Some Sample.first_decl.
Proof.
  cbn zeta. split; [by vm_compute|]. split; [by vm_compute|].
  vm_compute. discriminate.
Qed.

End Index.

(** ** Occurrence wrapping *)

Module Occurs.

Lemma element_to_field_S self fuel node :
  _element_to_field self (S fuel) node =
  (expr ← _expr_for_element_content self fuel node;
   Some (mkField (_snake_case (get_default node "name" "item"))
                 (_element_occurs_wrapped expr node))).
Proof. done. Qed.

(** A bound above one is not the string ["1"]. *)
Lemma occurs_above_one_not_one bound :
  occurs_above_one bound = true → String.eqb bound "1" = false.
Proof.
  intros H. destruct (String.eqb_spec bound "1") as [->|]; [|done].
  by vm_compute in H.
Qed.

(** [_element_occurs_wrapped] reads the two attributes as strings. *)
Lemma element_occurs_wrapped_raw (expr : Expr) (node : Element) :
  _element_occurs_wrapped expr node =
  raw_occurs_wrapping (get node "minOccurs") (get node "maxOccurs") expr.
Proof.
  unfold _element_occurs_wrapped, raw_occurs_wrapping, get_default. cbn zeta.
  destruct (get node "maxOccurs") as [hi|], (get node "minOccurs") as [lo|];
    cbn [default from_option id];
    try destruct (String.eqb_spec hi "1") as [->|Hhi];
    try destruct (String.eqb_spec lo "0") as [->|Hlo];
    cbn; repeat case_bool_decide; try done; intuition congruence.
Qed.

(** C1, as the code has it: an element declaration whose [minOccurs]
    attribute is the string ["0"] and whose [maxOccurs] attribute is present
    and is not the string ["1"] (so [unbounded], or any numeral above one)
    resolves to a field of expression [Optional (List inner)], where [inner]
    is the element's content expression; the result is never
    [List (Optional inner)]. *)
Theorem optional_is_the_outer_wrapper
    (self : XSDSchemaCompiler) (fuel : nat) (node : Element) (inner : Expr) :
  get_default node "minOccurs" "1" = "0" →
  get_default node "maxOccurs" "1" ≠ "1" →
  _expr_for_element_content self fuel node = Some inner →
  _element_occurs_wrapped inner node = Optional (List inner) ∧
  _element_to_field self (S fuel) node =
    Some (mkField (_snake_case (get_default node "name" "item"))
                  (Optional (List inner))) ∧
  _element_occurs_wrapped inner node ≠ List (Optional inner).
Proof.
  intros Hmin Hmax%String.eqb_neq Hinner.
  assert (_element_occurs_wrapped inner node = Optional (List inner)) as Hw.
  { unfold _element_occurs_wrapped. cbn zeta. by rewrite Hmin, Hmax. }
  rewrite element_to_field_S, Hinner. cbn [mbind option_bind]. rewrite Hw.
  split; [done|]. split; [done|]. discriminate.
Qed.

Lemma optional_is_the_outer_wrapper_witness :
  _element_to_field (init "capec.xsd" Sample.catalog []) 3 Sample.optional_many =
    Some (mkField "note" (Optional (List (Scalar "string")))).
Proof.
  apply (optional_is_the_outer_wrapper
           (init "capec.xsd" Sample.catalog []) 2 Sample.optional_many
           (Scalar "string")); by vm_compute.
Defined.

(** C1, as stated, fails: [minOccurs="00"] denotes zero and [maxOccurs] is
    unbounded, yet the element resolves to a list without the optional
    around it, because the code compares the attribute with the string
    ["0"]. *)
Lemma zero_padded_min_occurs_is_not_optional :
  let self := init "capec.xsd" Sample.catalog [] in
  let node := Sample.padded_optional_many in
  occurs_value (get_default node "minOccurs" "1") = Some 0%nat ∧
  occurs_above_one (get_default node "maxOccurs" "1") = true ∧
  _expr_for_element_content self 2 node = Some (Scalar "string") ∧
  _element_to_field self 3 node =
    Some (mkField "note" (List (Scalar "string"))) ∧
  _element_to_field self 3 node ≠
    Some (mkField "note" (Optional (List (Scalar "string")))).
Proof.
  cbn zeta. split; [by vm_compute|]. split; [by vm_compute|].
  split; [by vm_compute|]. split; [by vm_compute|].
  vm_compute. discriminate.
Qed.

End Occurs.

(** ** Complex types *)

Module Complex.

(** The two ways [_expr_for_complex_type] goes: through an extension, or
    through the plain structure. *)
Lemma expr_for_complex_type_extension self fuel node context_name extension :
  extension_of node = Some extension →
  _expr_for_complex_type self (S fuel) node context_name =
  (base_expr ← _expr_for_type_name self fuel
                 (get_default extension "base" "xs:string") context_name;
   attrs ← mapM (_attribute_to_field self fuel)
                (findall extension (XSD_NS +:+ "attribute"));
   Some (Object (_filter_fields self
                   (base_field base_expr context_name :: attrs)))).
Proof.
  unfold extension_of. cbn [_expr_for_complex_type].
  destruct (find node (XSD_NS +:+ "complexContent")
              ≫= λ c, find c (XSD_NS +:+ "extension")) as [e1|].
  - by intros [= ->].
  - by intros ->.
Qed.

Lemma expr_for_complex_type_plain self fuel node context_name :
  extension_of node = None →
  _expr_for_complex_type self (S fuel) node context_name =
  let attributes := findall node (XSD_NS +:+ "attribute") in
  match find node (XSD_NS +:+ "sequence") with
  | Some sequence =>
      let elements := findall sequence (XSD_NS +:+ "element") in
      match elements, attributes with
      | [child], [] =>
          if String.eqb (get_default child "minOccurs" "1") "1"
             && negb (String.eqb (get_default child "maxOccurs" "1") "1")
          then child_expr ← _expr_for_element_content self fuel child;
               Some (List child_expr)
          else fields ← mapM (_element_to_field self fuel) elements;
               Some (Object (_filter_fields self (fields ++ [])))
      | _, _ =>
          fields ← mapM (_element_to_field self fuel) elements;
          attrs ← mapM (_attribute_to_field self fuel) attributes;
          Some (Object (_filter_fields self (fields ++ attrs)))
      end
  | None =>
      attrs ← mapM (_attribute_to_field self fuel) attributes;
      Some (Object (_filter_fields self attrs))
  end.
Proof.
  unfold extension_of. cbn [_expr_for_complex_type].
  destruct (find node (XSD_NS +:+ "complexContent")
              ≫= λ c, find c (XSD_NS +:+ "extension")) as [e1|]; [done|].
  intros ->. cbn zeta.
  destruct (find node (XSD_NS +:+ "sequence")) as [sequence|]; [|done].
  destruct (findall sequence (XSD_NS +:+ "element")) as [|child [|]]; [done| |done].
  destruct (findall node (XSD_NS +:+ "attribute")) as [|]; [|done].
  by destruct (_ && _).
Qed.

Lemma no_content_no_extension node :
  find node (XSD_NS +:+ "complexContent") = None →
  find node (XSD_NS +:+ "simpleContent") = None →
  extension_of node = None.
Proof. unfold extension_of. by intros -> ->. Qed.

(** C3, as the code has it: a complex type without complex or simple
    content, without attributes of its own, whose sequence holds exactly one
    element declaration whose [minOccurs] attribute is absent or the string
    ["1"] and whose [maxOccurs] attribute is present and is not the string
    ["1"] (so [unbounded], or any numeral above one), resolves to the bare
    [List] of that element's content expression, not to an [Object] with a
    list field. *)
Theorem sole_repeated_child_collapses
    (self : XSDSchemaCompiler) (fuel : nat) (node sequence child : Element)
    (context_name : string) (child_expr : Expr) :
  find node (XSD_NS +:+ "complexContent") = None →
  find node (XSD_NS +:+ "simpleContent") = None →
  find node (XSD_NS +:+ "sequence") = Some sequence →
  findall sequence (XSD_NS +:+ "element") = [child] →
  findall node (XSD_NS +:+ "attribute") = [] →
  get_default child "minOccurs" "1" = "1" →
  get_default child "maxOccurs" "1" ≠ "1" →
  _expr_for_element_content self fuel child = Some child_expr →
  _expr_for_complex_type self (S fuel) node context_name = Some (List child_expr).
Proof.
  intros Hc Hs Hseq Hels Hattrs Hmin Hmax%String.eqb_neq Hchild.
  rewrite expr_for_complex_type_plain by by apply no_content_no_extension.
  cbn zeta. by rewrite Hseq, Hels, Hattrs, Hmin, Hmax, Hchild.
Qed.

(** The scenario of the specification: the wrapper of a repeatable
    [Example_Instance] of type [xs:string] is a list of strings, and renders
    as [list<string>]. *)
Lemma sole_repeated_child_collapses_witness :
  _expr_for_complex_type (init "capec.xsd" Sample.catalog []) 3
    Sample.examples_type "examples" = Some (List (Scalar "string")).
Proof.
  apply (sole_repeated_child_collapses
           (init "capec.xsd" Sample.catalog []) 2 Sample.examples_type
           (Sample.xs "sequence" [] [Sample.example_instance])
           Sample.example_instance "examples" (Scalar "string"));
    by vm_compute.
Defined.

(** C3, as stated, fails: the sole child has [minOccurs="01"], which denotes
    one, and [maxOccurs] unbounded, and the type has no attributes, yet the
    type resolves to an object with a list field, because the code compares
    the attribute with the string ["1"]. *)
Lemma zero_padded_min_occurs_keeps_the_object :
  let self := init "capec.xsd" Sample.catalog [] in
  let node := Sample.padded_examples_type in
  let child := Sample.padded_example_instance in
  find node (XSD_NS +:+ "complexContent") = None ∧
  find node (XSD_NS +:+ "simpleContent") = None ∧
  (∃ sequence, find node (XSD_NS +:+ "sequence") = Some sequence ∧
               findall sequence (XSD_NS +:+ "element") = [child]) ∧
  findall node (XSD_NS +:+ "attribute") = [] ∧
  occurs_value (get_default child "minOccurs" "1") = Some 1%nat ∧
  occurs_above_one (get_default child "maxOccurs" "1") = true ∧
  _expr_for_complex_type self 4 node "examples" =
    Some (Object [mkField "example_instance" (List (Scalar "string"))]) ∧
  _expr_for_complex_type self 4 node "examples" ≠ Some (List (Scalar "string")).
Proof.
  cbn zeta. split; [by vm_compute|]. split; [by vm_compute|].
  split; [eexists; split; by vm_compute|].
  split; [by vm_compute|]. split; [by vm_compute|]. split; [by vm_compute|].
  split; [by vm_compute|]. vm_compute. discriminate.
Qed.

End Complex.

(** ** Attributes *)

Module Attribute.

Lemma attribute_to_field_S self fuel attr :
  _attribute_to_field self (S fuel) attr =
  (expr ← attribute_type_expr self fuel attr;
   Some (mkField (_snake_case (get_default attr "name" "attribute"))
           (if negb (bool_decide (get attr "use" = Some "required"))
            then Optional expr else expr))).
Proof. done. Qed.

(** A complex type resolves to an object or to a list. *)
Lemma expr_for_complex_type_kind self fuel node context_name expr :
  _expr_for_complex_type self fuel node context_name = Some expr →
  kind expr = "object" ∨ kind expr = "list".
Proof.
  destruct fuel as [|fuel]; [done|].
  destruct (extension_of node) as [extension|] eqn:Hext.
  - rewrite (Complex.expr_for_complex_type_extension _ _ _ _ _ Hext).
    intros H. simplify_option_eq. by left.
  - rewrite (Complex.expr_for_complex_type_plain _ _ _ _ Hext). cbn zeta.
    intros H. repeat case_match; simplify_option_eq; auto.
Qed.

(** A type reference never resolves to an optional. *)
Lemma expr_for_type_name_kind self fuel type_name context_name expr :
  _expr_for_type_name self fuel type_name context_name = Some expr →
  kind expr ≠ "optional".
Proof.
  destruct fuel as [|fuel]; [done|]. cbn [_expr_for_type_name].
  unfold _expr_for_simple_type.
  intros H. repeat case_match; simplify_eq; try done.
  by apply expr_for_complex_type_kind in H as [-> | ->].
Qed.

Lemma attribute_type_expr_kind self fuel attr expr :
  attribute_type_expr self fuel attr = Some expr → kind expr ≠ "optional".
Proof.
  unfold attribute_type_expr, _expr_for_simple_type. cbn zeta.
  intros H. repeat case_match; simplify_eq; try done.
  by eapply expr_for_type_name_kind.
Qed.

(** C4: an attribute's resolved expression is wrapped in [Optional] if and
    only if its [use] attribute is not exactly ["required"]: a required
    attribute keeps the resolved expression, which is never an optional, and
    every other attribute gets the wrapper. *)
Theorem attribute_optional_unless_required
    (self : XSDSchemaCompiler) (fuel : nat) (attr : Element) (expr : Expr) :
  attribute_type_expr self fuel attr = Some expr →
  ∃ field : Field,
    _attribute_to_field self (S fuel) attr = Some field ∧
    field_name field = _snake_case (get_default attr "name" "attribute") ∧
    (get attr "use" = Some "required" → field_expr field = expr) ∧
    (get attr "use" ≠ Some "required" → field_expr field = Optional expr) ∧
    (kind (field_expr field) = "optional" ↔ get attr "use" ≠ Some "required").
Proof.
  intros Hexpr. rewrite attribute_to_field_S, Hexpr. cbn [mbind option_bind].
  eexists. split; [done|]. cbn [field_name field_expr].
  pose proof (attribute_type_expr_kind _ _ _ _ Hexpr).
  case_bool_decide; cbn [negb]; naive_solver.
Qed.

Lemma attribute_optional_unless_required_witness :
  ∃ field : Field,
    _attribute_to_field (init "capec.xsd" Sample.catalog []) 2
      Sample.note_attribute = Some field ∧
    field_name field = "note" ∧
    (get Sample.note_attribute "use" = Some "required" →
     field_expr field = Scalar "string") ∧
    (get Sample.note_attribute "use" ≠ Some "required" →
     field_expr field = Optional (Scalar "string")) ∧
    (kind (field_expr field) = "optional" ↔
     get Sample.note_attribute "use" ≠ Some "required").
Proof.
  apply (attribute_optional_unless_required
           (init "capec.xsd" Sample.catalog []) 1 Sample.note_attribute
           (Scalar "string")).
  by vm_compute.
Defined.

End Attribute.

(** ** Naming the base value of an extension *)

Module BaseValue.

Lemma skill_has_no_name : Str.contains "name" "skill" = false.
Proof. done. Qed.

(** The heuristic of [_base_value_name], case by case; [ctx] is the context
    name in lower case, as [str.lower] gives it. *)
Lemma base_value_name_cases (base_scalar context_name : string) :
  let ctx := Str.lower_utf8 context_name in
  let chosen := _base_value_name base_scalar context_name in
  (Str.contains "name" ctx = true → base_scalar = "string" → chosen = "name") ∧
  (ctx = "skill" → chosen = "value") ∧
  (base_scalar = "structured_text" → ctx = "technique" → chosen = "text") ∧
  (base_scalar = "structured_text" → ctx ≠ "skill" → ctx ≠ "technique" →
   chosen = "content") ∧
  (base_scalar ≠ "structured_text" →
   ¬ (Str.contains "name" ctx = true ∧ base_scalar = "string") →
   chosen = "value").
Proof.
  cbn zeta. unfold _base_value_name, member. cbn [existsb]. cbn zeta.
  rewrite !orb_false_r.
  destruct (Str.contains "name" (Str.lower_utf8 context_name)) eqn:Hname;
    destruct (String.eqb_spec base_scalar "string") as [Hstring|Hstring];
    destruct (String.eqb_spec (Str.lower_utf8 context_name) "skill") as [Hskill|Hskill];
    try (rewrite Hskill in Hname; discriminate Hname);
    destruct (String.eqb_spec (Str.lower_utf8 context_name) "technique") as [Htech|Htech];
    destruct (String.eqb_spec base_scalar "structured_text") as [Htext|Htext];
    cbn [andb]; repeat split; intros; try done; try congruence; exfalso; auto.
Qed.

(** [str.lower] turns the Kelvin sign U+212A into [k]: the context
    [S], U+212A, [ILL] is the context [skill]. *)
Lemma kelvin_sign_context :
  Str.lower_utf8 (String "S" (String "226" (String "132" (String "170" "ILL"))))
    = "skill" ∧
  _base_value_name "structured_text"
    (String "S" (String "226" (String "132" (String "170" "ILL")))) = "value".
Proof. by vm_compute. Qed.

(** C5, as the code has it.  A complex type with a complex-content or
    simple-content extension resolves to the object whose first field holds
    the base value, followed by the extension's attributes.  For a scalar
    base of kind [k] and lower-cased context [ctx] the field is named [name]
    when [ctx] contains ["name"] and [k] is [string]; [value] when [ctx] is
    ["skill"]; for [k = structured_text], [text] when [ctx] is ["technique"]
    and [content] when [ctx] is neither; and [value] in every remaining
    case.  A base that is not a scalar is named [value]. *)
Theorem extension_base_field_name
    (self : XSDSchemaCompiler) (fuel : nat) (node extension : Element)
    (context_name : string) (base_expr : Expr) (attrs : list Field) :
  extension_of node = Some extension →
  _expr_for_type_name self fuel
    (get_default extension "base" "xs:string") context_name = Some base_expr →
  mapM (_attribute_to_field self fuel)
       (findall extension (XSD_NS +:+ "attribute")) = Some attrs →
  ∃ chosen : string,
    _expr_for_complex_type self (S fuel) node context_name =
      Some (Object (_filter_fields self (mkField chosen base_expr :: attrs))) ∧
    let ctx := Str.lower_utf8 context_name in
    (∀ k, base_expr = Scalar k →
       (Str.contains "name" ctx = true → k = "string" → chosen = "name") ∧
       (ctx = "skill" → chosen = "value") ∧
       (k = "structured_text" → ctx = "technique" → chosen = "text") ∧
       (k = "structured_text" → ctx ≠ "skill" → ctx ≠ "technique" →
        chosen = "content") ∧
       (k ≠ "structured_text" →
        ¬ (Str.contains "name" ctx = true ∧ k = "string") →
        chosen = "value")) ∧
    (kind base_expr ≠ "scalar" → chosen = "value").
Proof.
  intros Hext Hbase Hattrs.
  rewrite (Complex.expr_for_complex_type_extension _ _ _ _ _ Hext), Hbase.
  cbn [mbind option_bind]. rewrite Hattrs. cbn [mbind option_bind].
  exists (field_name (base_field base_expr context_name)).
  split; [by destruct base_expr|]. cbn zeta. split.
  - intros k ->. apply base_value_name_cases.
  - by destruct base_expr.
Qed.

(** The scenario of the specification: simple content extending
    [xs:string] in the context [skill], with a required attribute. *)
Lemma extension_base_field_name_witness :
  ∃ chosen : string,
    _expr_for_complex_type (init "capec.xsd" Sample.catalog []) 4
      Sample.skill_type "skill" =
      Some (Object (_filter_fields (init "capec.xsd" Sample.catalog [])
              [mkField chosen (Scalar "string");
               mkField "level"
                 (_expr_for_simple_type Sample.severity)])) ∧
    let ctx := Str.lower_utf8 "skill" in
    (∀ k, Scalar "string" = Scalar k →
       (Str.contains "name" ctx = true → k = "string" → chosen = "name") ∧
       (ctx = "skill" → chosen = "value") ∧
       (k = "structured_text" → ctx = "technique" → chosen = "text") ∧
       (k = "structured_text" → ctx ≠ "skill" → ctx ≠ "technique" →
        chosen = "content") ∧
       (k ≠ "structured_text" →
        ¬ (Str.contains "name" ctx = true ∧ k = "string") →
        chosen = "value")) ∧
    (kind (Scalar "string") ≠ "scalar" → chosen = "value").
Proof.
  apply (extension_base_field_name
           (init "capec.xsd" Sample.catalog []) 3 Sample.skill_type
           Sample.skill_extension "skill" (Scalar "string")
           [mkField "level" (_expr_for_simple_type Sample.severity)]);
    by vm_compute.
Defined.

(** C5, as stated, fails: in a context that contains ["name"] a base of
    kind [int] is not named [name] but [value]. *)
Lemma name_context_with_int_base :
  Str.contains "name" (Str.lower_utf8 "name") = true ∧
  _expr_for_complex_type (init "capec.xsd" Sample.catalog []) 3
    Sample.count_type "name" = Some (Object [mkField "value" (Scalar "int")]) ∧
  _base_value_name "int" "name" ≠ "name".
Proof. split; [by vm_compute|]. split; [by vm_compute|]. by vm_compute. Qed.

End BaseValue.

(** ** Enumerations *)

Module Enumeration.

Lemma drop_pad (pad text : string) : Str.drop (String.length pad) (pad +:+ text) = text.
Proof. induction pad as [|c pad IH]; [by destruct text|done]. Qed.

Lemma append_assoc (a b c : string) : (a +:+ b) +:+ c = a +:+ b +:+ c.
Proof.
  induction a as [|x a IH]; [done|].
  change (String x ((a +:+ b) +:+ c) = String x (a +:+ b +:+ c)). by f_equal.
Qed.

Lemma facets_values (facets : list Element) (values : list string) :
  Forall2 (λ facet value, get facet "value" = Some value) facets values →
  omap (λ facet, get facet "value") facets = values.
Proof. induction 1 as [|facet value ? ? Hv]; [done|]. cbn. by rewrite Hv; f_equal. Qed.



End Enumeration.

(** ** More fuel never changes a result *)

Module Fuel.

Lemma expr_for_type_name_S self fuel type_name context_name :
  _expr_for_type_name self (S fuel) type_name context_name =
  let local := _strip_ns type_name in
  if String.prefix "xs:" type_name || member local builtin_names
  then Some (Scalar (_builtin_scalar type_name))
  else if String.eqb local "StructuredTextType"
  then Some (Scalar "structured_text")
  else match simple_types self !! local with
       | Some node => Some (_expr_for_simple_type node)
       | None =>
           match complex_types self !! local with
           | Some node => _expr_for_complex_type self fuel node context_name
           | None => Some (Scalar "string")
           end
       end.
Proof. done. Qed.

Lemma expr_for_element_content_S self fuel node :
  _expr_for_element_content self (S fuel) node =
  let element_name := _snake_case (get_default node "name" "item") in
  if truthy (get node "type")
  then _expr_for_type_name self fuel
         (default EmptyString (get node "type")) element_name
  else match find node (XSD_NS +:+ "simpleType") with
       | Some inline_simple => Some (_expr_for_simple_type inline_simple)
       | None =>
           match find node (XSD_NS +:+ "complexType") with
           | Some inline_complex =>
               _expr_for_complex_type self fuel inline_complex element_name
           | None => Some (Scalar "string")
           end
       end.
Proof. done. Qed.

Lemma mapM_mono {A B} (f g : A → option B) (l : list A) (k : list B) :
  (∀ x y, f x = Some y → g x = Some y) →
  mapM f l = Some k → mapM g l = Some k.
Proof.
  intros Hfg. rewrite !mapM_Some. apply Forall2_impl. auto.
Qed.

Lemma bind_mono {A B} (m m' : option A) (k k' : A → option B) (r : B) :
  (∀ a, m = Some a → m' = Some a) →
  (∀ a, k a = Some r → k' a = Some r) →
  m ≫= k = Some r → m' ≫= k' = Some r.
Proof.
  destruct m as [a|]; [|done]. intros Hm Hk. rewrite (Hm a eq_refl). apply Hk.
Qed.

Lemma preserved_S self fuel : preserved self fuel (S fuel).
Proof.
  induction fuel as [|fuel (IHtn & IHattr & IHelc & IHelf & IHcx)];
    [by repeat split|].
  assert (∀ attr expr,
            attribute_type_expr self fuel attr = Some expr →
            attribute_type_expr self (S fuel) attr = Some expr) as IHate.
  { unfold attribute_type_expr. cbn zeta. intros attr expr.
    repeat case_match; auto. }
  repeat split.
  - intros type_name context_name expr. rewrite !expr_for_type_name_S. cbn zeta.
    repeat case_match; auto.
  - intros attr field. rewrite !Attribute.attribute_to_field_S.
    destruct (attribute_type_expr self fuel attr) as [expr|] eqn:He; [|done].
    by rewrite (IHate _ _ He).
  - intros node expr. rewrite !expr_for_element_content_S. cbn zeta.
    repeat case_match; auto.
  - intros node field. rewrite !Occurs.element_to_field_S.
    destruct (_expr_for_element_content self fuel node) as [expr|] eqn:He; [|done].
    by rewrite (IHelc _ _ He).
  - intros node context_name expr.
    destruct (extension_of node) as [extension|] eqn:Hext.
    + rewrite !(Complex.expr_for_complex_type_extension _ _ _ _ _ Hext).
      apply bind_mono; [by auto|]. intros base.
      apply bind_mono; [|done]. intros attrs. by apply mapM_mono.
    + rewrite !(Complex.expr_for_complex_type_plain _ _ _ _ Hext). cbn zeta.
      repeat case_match; try done;
        repeat (apply bind_mono;
                [intros ?; first [by apply mapM_mono | by auto]|intros ?]);
        done.
Qed.

Lemma preserved_le self (fuel fuel' : nat) :
  (fuel ≤ fuel')%nat → preserved self fuel fuel'.
Proof.
  induction 1 as [|fuel' _ (IHtn & IHattr & IHelc & IHelf & IHcx)];
    [by repeat split|].
  destruct (preserved_S self fuel') as (Htn & Hattr & Helc & Helf & Hcx).
  repeat split; eauto.
Qed.

End Fuel.

(** ** Occurrence attributes as raw strings *)

Module RawOccurs.

(** C10: the occurrence attributes are compared as raw strings.  Element
    resolution wraps the content expression in [List] exactly when
    [maxOccurs] is present and is not the string ["1"], and then in
    [Optional] exactly when [minOccurs] is the string ["0"].  The collapse
    test of complex-type resolution reads the sole child the same way: the
    type becomes the bare list exactly when [minOccurs] is absent or the
    string ["1"] and [maxOccurs] is present and not the string ["1"], and the
    object of the wrapped field otherwise.  So [maxOccurs="0"] and
    [maxOccurs="01"] both give a list, and [minOccurs="00"] gives no
    optional. *)
Theorem occurs_compared_as_raw_strings (self : XSDSchemaCompiler) :
  (∀ (fuel : nat) (node : Element) (inner : Expr),
     _expr_for_element_content self fuel node = Some inner →
     _element_to_field self (S fuel) node =
       Some (mkField (_snake_case (get_default node "name" "item"))
               (raw_occurs_wrapping (get node "minOccurs")
                  (get node "maxOccurs") inner))) ∧
  (∀ (fuel : nat) (node sequence child : Element) (context_name : string)
     (inner : Expr),
     extension_of node = None →
     find node (XSD_NS +:+ "sequence") = Some sequence →
     findall sequence (XSD_NS +:+ "element") = [child] →
     findall node (XSD_NS +:+ "attribute") = [] →
     _expr_for_element_content self fuel child = Some inner →
     _expr_for_complex_type self (S (S fuel)) node context_name =
       Some (if bool_decide
                  ((get child "minOccurs" = None ∨
                    get child "minOccurs" = Some "1") ∧
                   ¬ (get child "maxOccurs" = None ∨
                      get child "maxOccurs" = Some "1"))
             then List inner
             else Object (_filter_fields self
                    [mkField (_snake_case (get_default child "name" "item"))
                       (raw_occurs_wrapping (get child "minOccurs")
                          (get child "maxOccurs") inner)]))) ∧
  _element_to_field self 3
    (Sample.xs "element" [("type", "xs:string"); ("maxOccurs", "0")] []) =
    Some (mkField "item" (List (Scalar "string"))) ∧
  _element_to_field self 3
    (Sample.xs "element" [("type", "xs:string"); ("maxOccurs", "01")] []) =
    Some (mkField "item" (List (Scalar "string"))) ∧
  _element_to_field self 3
    (Sample.xs "element" [("type", "xs:string"); ("maxOccurs", "1")] []) =
    Some (mkField "item" (Scalar "string")) ∧
  _element_to_field self 3
    (Sample.xs "element" [("type", "xs:string"); ("minOccurs", "00")] []) =
    Some (mkField "item" (Scalar "string")) ∧
  _element_to_field self 3
    (Sample.xs "element" [("type", "xs:string"); ("minOccurs", "0")] []) =
    Some (mkField "item" (Optional (Scalar "string"))).
Proof.
  split; [|split; [|by vm_compute]].
  - intros fuel node inner Hinner.
    rewrite Occurs.element_to_field_S, Hinner. cbn [mbind option_bind].
    by rewrite Occurs.element_occurs_wrapped_raw.
  - intros fuel node sequence child context_name inner
      Hext Hseq Hels Hattrs Hinner.
    rewrite (Complex.expr_for_complex_type_plain _ _ _ _ Hext). cbn zeta.
    rewrite Hseq, Hels, Hattrs.
    destruct (Fuel.preserved_S self fuel) as (_ & _ & Helc & _).
    rewrite (Helc _ _ Hinner). cbn [mapM].
    rewrite Occurs.element_to_field_S, Hinner.
    cbn [mbind option_bind mret option_ret app].
    rewrite Occurs.element_occurs_wrapped_raw.
    unfold get_default at 1 2.
    destruct (get child "minOccurs") as [lo|], (get child "maxOccurs") as [hi|];
      cbn [default from_option id];
      try destruct (String.eqb_spec lo "1") as [->|Hlo];
      try destruct (String.eqb_spec hi "1") as [->|Hhi];
      cbn [String.eqb Ascii.eqb Bool.eqb andb negb mbind option_bind mret
           option_ret];
      case_bool_decide as Hd; try done; exfalso;
      intuition congruence.
Qed.

(** The repeatable [Example_Instance] and its wrapper type. *)
Lemma occurs_compared_as_raw_strings_witness :
  _element_to_field (init "capec.xsd" Sample.catalog []) 3
    Sample.optional_many =
    Some (mkField "note" (Optional (List (Scalar "string")))) ∧
  _expr_for_complex_type (init "capec.xsd" Sample.catalog []) 4
    Sample.examples_type "examples" = Some (List (Scalar "string")).
Proof.
  destruct (occurs_compared_as_raw_strings
              (init "capec.xsd" Sample.catalog [])) as (Hfield & Htype & _).
  split.
  - apply (Hfield 2%nat Sample.optional_many (Scalar "string")).
    by vm_compute.
  - apply (Htype 2%nat Sample.examples_type
             (Sample.xs "sequence" [] [Sample.example_instance])
             Sample.example_instance "examples" (Scalar "string"));
      by vm_compute.
Defined.

End RawOccurs.

(** ** Resolution returns on acyclic schemas *)

Module Termination.

(** Structural induction on an element and its children. *)
Lemma Element_ind (P : Element → Prop) :
  (∀ tag attrib nodes, Forall P nodes → P (mkElement tag attrib nodes)) →
  ∀ node, P node.
Proof.
  intros step. fix IH 1. intros [t a nodes]. apply step.
  induction nodes as [|child nodes IHnodes]; constructor; [apply IH|apply IHnodes].
Qed.

Lemma descendants_unfold node :
  descendants node = node :: flat_map descendants (children node).
Proof.
  by destruct node as [t a nodes].
Qed.

Lemma elem_of_descendants d node :
  d ∈ descendants node ↔
  d = node ∨ ∃ child, child ∈ children node ∧ d ∈ descendants child.
Proof.
  rewrite descendants_unfold, elem_of_cons, list_elem_of_In, in_flat_map.
  by setoid_rewrite list_elem_of_In.
Qed.

Lemma descendants_self node : node ∈ descendants node.
Proof. apply elem_of_descendants. by left. Qed.

Lemma descendants_child child node :
  child ∈ children node → child ∈ descendants node.
Proof.
  intros H. apply elem_of_descendants. right. exists child.
  split; [done|apply descendants_self].
Qed.

Lemma descendants_trans d mid node :
  d ∈ descendants mid → mid ∈ descendants node → d ∈ descendants node.
Proof.
  revert mid d. induction node as [t a nodes IH] using Element_ind.
  intros mid d Hd [->|(child & Hchild & Hmid)]%elem_of_descendants; [done|].
  apply elem_of_descendants. right. exists child. split; [done|].
  rewrite Forall_forall in IH. apply list_elem_of_In in Hchild.
  by apply (IH child Hchild mid).
Qed.

Lemma type_refs_own type_name d node :
  type_name ∈ own_refs d → d ∈ descendants node → type_name ∈ type_refs node.
Proof.
  unfold type_refs. rewrite !list_elem_of_In. intros Ht Hd.
  apply in_flat_map. eauto.
Qed.

Lemma type_refs_below type_name d node :
  type_name ∈ type_refs d → d ∈ descendants node → type_name ∈ type_refs node.
Proof.
  unfold type_refs at 1. rewrite list_elem_of_In, in_flat_map.
  intros (d' & Hd'%list_elem_of_In & Ht%list_elem_of_In) Hd.
  apply (type_refs_own _ d'); [done|]. by apply (descendants_trans _ d).
Qed.

Lemma find_child node path child :
  find node path = Some child → child ∈ children node.
Proof.
  unfold find. intros [H _]%List.find_some. by apply list_elem_of_In.
Qed.

Lemma findall_child node path child :
  child ∈ findall node path → child ∈ children node.
Proof.
  unfold findall. rewrite !list_elem_of_In, filter_In. tauto.
Qed.

Lemma resolves_mono self (fuel fuel' : nat) node :
  (fuel ≤ fuel')%nat → resolves self fuel node → resolves self fuel' node.
Proof.
  intros Hle (Hcx & [f1 H1] & [e2 H2] & [f3 H3]).
  destruct (Fuel.preserved_le self _ _ Hle) as (_ & Hattr & Helc & Helf & Hcx').
  repeat split; eauto.
  intros context_name. destruct (Hcx context_name) as [e He]. eauto.
Qed.

(** One fuel for a whole list, given one for each item. *)
Lemma uniform_fuel {A} (P : nat → A → Prop) (l : list A) :
  (∀ (fuel fuel' : nat) x, (fuel ≤ fuel')%nat → P fuel x → P fuel' x) →
  (∀ x, x ∈ l → ∃ fuel, P fuel x) →
  ∃ fuel, ∀ x, x ∈ l → P fuel x.
Proof.
  intros Hmono. induction l as [|a l IH]; intros H.
  - exists 0%nat. by intros x ?%elem_of_nil.
  - destruct (H a) as [fa Ha]; [by left|].
    destruct IH as [fl Hl]; [intros x Hx; apply H; by right|].
    exists (fa `max` fl). intros x [->|Hx]%elem_of_cons.
    + apply (Hmono fa); [lia|done].
    + apply (Hmono fl); [lia|auto].
Qed.

Lemma expr_for_type_name_mono self (fuel fuel' : nat) type_name :
  (fuel ≤ fuel')%nat →
  (∀ context_name, is_Some (_expr_for_type_name self fuel type_name context_name)) →
  ∀ context_name, is_Some (_expr_for_type_name self fuel' type_name context_name).
Proof.
  intros Hle H context_name. destruct (H context_name) as [e He].
  destruct (Fuel.preserved_le self _ _ Hle) as (Htn & _). eauto.
Qed.

Lemma is_Some_bind {A B} (m : option A) (k : A → option B) :
  is_Some m → (∀ a, is_Some (k a)) → is_Some (m ≫= k).
Proof. intros [a ->] Hk. apply Hk. Qed.

Lemma is_Some_mapM {A B} (f : A → option B) (l : list A) :
  (∀ x, x ∈ l → is_Some (f x)) → is_Some (mapM f l).
Proof.
  intros H. apply mapM_is_Some, Forall_forall. intros x Hx%list_elem_of_In.
  by apply H.
Qed.

Lemma extension_of_below node extension :
  extension_of node = Some extension →
  ∃ content, content ∈ children node ∧ extension ∈ children content.
Proof.
  unfold extension_of.
  destruct (find node (XSD_NS +:+ "complexContent")) as [c1|] eqn:H1;
    cbn [mbind option_bind].
  - destruct (find c1 (XSD_NS +:+ "extension")) as [e1|] eqn:H2.
    + intros [= <-]. eauto using find_child.
    + destruct (find node (XSD_NS +:+ "simpleContent")) as [c2|] eqn:H3;
        cbn [mbind option_bind]; [|done].
      intros H4. eauto using find_child.
  - destruct (find node (XSD_NS +:+ "simpleContent")) as [c2|] eqn:H3;
      cbn [mbind option_bind]; [|done].
    intros H4. eauto using find_child.
Qed.

(** One node, given its type references and everything below it. *)
Section Step.

Variable self : XSDSchemaCompiler.
Variable fuel : nat.
Variable node : Element.

Hypothesis below_resolve :
  ∀ child d, child ∈ children node → d ∈ descendants child →
             resolves self (S fuel) d.
Hypothesis refs_resolve :
  ∀ type_name, type_name ∈ type_refs node →
  ∀ context_name, is_Some (_expr_for_type_name self (S fuel) type_name context_name).

Lemma base_resolves extension context_name :
  extension ∈ descendants node →
  is_Some (_expr_for_type_name self (S fuel)
             (get_default extension "base" "xs:string") context_name).
Proof.
  intros Hext. unfold get_default.
  destruct (get extension "base") as [base|] eqn:Hbase; [|by eexists].
  apply refs_resolve, (type_refs_own _ extension); [|done].
  unfold own_refs. rewrite Hbase. apply elem_of_app. right. by left.
Qed.

Lemma type_resolves d context_name :
  d ∈ descendants node → truthy (get d "type") = true →
  is_Some (_expr_for_type_name self (S fuel)
             (default EmptyString (get d "type")) context_name).
Proof.
  intros Hd. destruct (get d "type") as [type_name|] eqn:Htype; [|done].
  intros _. apply refs_resolve, (type_refs_own _ d); [|done].
  unfold own_refs. rewrite Htype. apply elem_of_app. left. by left.
Qed.

Lemma child_resolves child : child ∈ children node → resolves self (S fuel) child.
Proof. intros H. apply (below_resolve child); [done|apply descendants_self]. Qed.

Lemma step_complex_type context_name :
  is_Some (_expr_for_complex_type self (S (S fuel)) node context_name).
Proof.
  destruct (extension_of node) as [extension|] eqn:Hext.
  - rewrite (Complex.expr_for_complex_type_extension _ _ _ _ _ Hext).
    destruct (extension_of_below _ _ Hext) as (content & Hcontent & Hextension).
    apply is_Some_bind.
    { apply base_resolves, (descendants_trans _ content);
        by apply descendants_child. }
    intros base. apply is_Some_bind; [|by eexists].
    apply is_Some_mapM. intros attr Hattr%findall_child.
    apply (below_resolve content attr Hcontent).
    apply (descendants_trans _ extension); by apply descendants_child.
  - rewrite (Complex.expr_for_complex_type_plain _ _ _ _ Hext). cbn zeta.
    destruct (is_Some_mapM (_attribute_to_field self (S fuel))
                (findall node (XSD_NS +:+ "attribute"))) as [attrs Hattrs].
    { intros attr Hattr%findall_child. by apply child_resolves. }
    destruct (find node (XSD_NS +:+ "sequence")) as [sequence|] eqn:Hseq;
      [|rewrite Hattrs; by eexists].
    apply find_child in Hseq.
    assert (∀ element, element ∈ findall sequence (XSD_NS +:+ "element") →
                       resolves self (S fuel) element) as Helements.
    { intros element Helement%findall_child.
      apply (below_resolve sequence); [done|by apply descendants_child]. }
    destruct (is_Some_mapM (_element_to_field self (S fuel))
                (findall sequence (XSD_NS +:+ "element"))) as [fields Hfields].
    { intros element Helement. by apply Helements. }
    revert Hattrs Helements Hfields.
    destruct (findall sequence (XSD_NS +:+ "element")) as [|child [|]];
      destruct (findall node (XSD_NS +:+ "attribute")) as [|];
      intros Hattrs Helements Hfields; try destruct (_ && _);
      rewrite ?Hfields, ?Hattrs; try (by eexists).
    destruct (Helements child) as (_ & _ & [e He] & _); [by left|].
    rewrite He. by eexists.
Qed.

Lemma step_attribute : is_Some (_attribute_to_field self (S (S fuel)) node).
Proof.
  rewrite Attribute.attribute_to_field_S. apply is_Some_bind; [|by eexists].
  unfold attribute_type_expr. cbn zeta.
  destruct (truthy (get node "type")) eqn:Htype.
  - by apply type_resolves; [apply descendants_self|].
  - by destruct (find node (XSD_NS +:+ "simpleType")).
Qed.

Lemma step_element_content :
  is_Some (_expr_for_element_content self (S (S fuel)) node).
Proof.
  rewrite Fuel.expr_for_element_content_S. cbn zeta.
  destruct (truthy (get node "type")) eqn:Htype.
  - by apply type_resolves; [apply descendants_self|].
  - destruct (find node (XSD_NS +:+ "simpleType")); [done|].
    destruct (find node (XSD_NS +:+ "complexType")) as [inline|] eqn:Hinline;
      [|done].
    apply find_child in Hinline. by apply child_resolves.
Qed.

Lemma step_resolves : resolves self (S (S (S fuel))) node.
Proof.
  assert (S (S fuel) ≤ S (S (S fuel)))%nat as Hle by lia.
  destruct (Fuel.preserved_le self _ _ Hle) as (_ & Hattr & Helc & _ & Hcx).
  repeat split.
  - intros context_name.
    destruct (step_complex_type context_name) as [e He]. eauto.
  - destruct step_attribute as [f Hf]. eauto.
  - destruct step_element_content as [e He]. eauto.
  - rewrite Occurs.element_to_field_S.
    apply is_Some_bind; [apply step_element_content|by eexists].
Qed.

End Step.

(** A whole tree, given its type references. *)
Lemma tree_resolves self (fuel : nat) node :
  (∀ type_name, type_name ∈ type_refs node →
   ∀ context_name, is_Some (_expr_for_type_name self fuel type_name context_name)) →
  ∃ fuel' : nat, ∀ d, d ∈ descendants node → resolves self fuel' d.
Proof.
  induction node as [t a nodes IH] using Element_ind. intros Hrefs.
  destruct (uniform_fuel
              (λ f child, ∀ d, d ∈ descendants child → resolves self f d) nodes)
    as [fc Hfc].
  { intros f f' child Hle H d Hd. apply (resolves_mono _ f); auto. }
  { intros child Hchild. rewrite Forall_forall in IH.
    apply (IH child); [by apply list_elem_of_In|].
    intros type_name Ht. apply Hrefs, (type_refs_below _ child); [done|].
    by apply descendants_child. }
  exists (S (S (S (fc `max` fuel)))).
  intros d [->|(child & Hchild & Hd)]%elem_of_descendants.
  - apply step_resolves.
    + intros child d Hchild Hd. apply (resolves_mono _ fc); [lia|].
      by apply (Hfc child).
    + intros type_name Ht. apply (expr_for_type_name_mono _ fuel); [lia|].
      by apply Hrefs.
  - apply (resolves_mono _ fc); [lia|]. by apply (Hfc child).
Qed.

Lemma complex_target_None self type_name (fuel : nat) context_name :
  complex_target self type_name = None →
  is_Some (_expr_for_type_name self (S fuel) type_name context_name).
Proof.
  unfold complex_target. rewrite Fuel.expr_for_type_name_S. cbn zeta.
  by repeat case_match.
Qed.

Lemma complex_target_Some self type_name name :
  complex_target self type_name = Some name →
  ∃ node, complex_types self !! name = Some node ∧
    ∀ (fuel : nat) context_name,
      _expr_for_type_name self (S fuel) type_name context_name =
      _expr_for_complex_type self fuel node context_name.
Proof.
  unfold complex_target. cbn zeta. intros H.
  destruct (String.prefix "xs:" type_name
            || member (_strip_ns type_name) builtin_names) eqn:H1; [done|].
  destruct (String.eqb (_strip_ns type_name) "StructuredTextType") eqn:H2; [done|].
  destruct (simple_types self !! _strip_ns type_name) eqn:H3; [done|].
  destruct (complex_types self !! _strip_ns type_name) as [node|] eqn:H4; [|done].
  injection H as <-. exists node. split; [done|]. intros fuel context_name.
  rewrite Fuel.expr_for_type_name_S. cbn zeta. by rewrite H1, H2, H3, H4.
Qed.

Section Ranked.

Variable self : XSDSchemaCompiler.
Variable rank : string → nat.
Hypothesis ranked : acyclic self rank = true.

Lemma ranked_refs name node type_name target :
  complex_types self !! name = Some node →
  type_name ∈ type_refs node →
  complex_target self type_name = Some target →
  (rank target < rank name)%nat.
Proof.
  intros Hnode Ht%list_elem_of_In Htarget.
  unfold acyclic in ranked. rewrite forallb_forall in ranked.
  specialize (ranked (name, node)). cbn [fst snd] in ranked.
  unfold ranked_below in ranked. rewrite forallb_forall in ranked.
  specialize (ranked ltac:(by apply list_elem_of_In, elem_of_map_to_list) _ Ht).
  rewrite Htarget in ranked. by apply Nat.ltb_lt.
Qed.

Lemma ranked_type_resolves (bound : nat) type_name :
  (∀ name, complex_target self type_name = Some name → (rank name < bound)%nat) →
  ∃ fuel : nat, ∀ context_name,
    is_Some (_expr_for_type_name self fuel type_name context_name).
Proof.
  revert type_name. induction bound as [bound IH] using lt_wf_ind.
  intros type_name Hbound.
  destruct (complex_target self type_name) as [name|] eqn:Htarget.
  - destruct (complex_target_Some _ _ _ Htarget) as (node & Hnode & Heq).
    destruct (uniform_fuel
                (λ f t, ∀ context_name,
                   is_Some (_expr_for_type_name self f t context_name))
                (type_refs node)) as [f0 Hf0].
    { intros f f' t Hle H. by apply (expr_for_type_name_mono _ f). }
    { intros t Ht. apply (IH (rank name)); [by apply Hbound|].
      intros name' Hname'. by apply (ranked_refs name node t). }
    destruct (tree_resolves self f0 node Hf0) as [f1 Hf1].
    exists (S f1). intros context_name. rewrite Heq.
    by apply (Hf1 node (descendants_self node)).
  - exists 1%nat. intros context_name. by apply complex_target_None.
Qed.

(** On an acyclic index every node resolves. *)
Lemma acyclic_resolves node : ∃ fuel : nat, resolves self fuel node.
Proof.
  destruct (uniform_fuel
              (λ f t, ∀ context_name,
                 is_Some (_expr_for_type_name self f t context_name))
              (type_refs node)) as [f0 Hf0].
  { intros f f' t Hle H. by apply (expr_for_type_name_mono _ f). }
  { intros t _.
    apply (ranked_type_resolves
             (S (from_option rank 0%nat (complex_target self t)))).
    intros name ->. cbn. lia. }
  destruct (tree_resolves self f0 node Hf0) as [f1 Hf1].
  exists f1. apply Hf1, descendants_self.
Qed.

End Ranked.

End Termination.

(** ** The root resolver *)

Module Root.

Lemma foldl_index_child_schema_path nodes self :
  schema_path (foldl index_child self nodes) = schema_path self.
Proof.
  revert self. induction nodes as [|child nodes IH]; intros self; [done|].
  cbn [foldl]. by rewrite IH, Index.index_child_schema_path.
Qed.

Lemma init_schema_path path document ignored :
  schema_path (init path document ignored) = Path_str path.
Proof. unfold init, _index_schema. by rewrite foldl_index_child_schema_path. Qed.

(** The index depends on the ignored keys as a set only. *)
Lemma init_ignored_set path document (ignored ignored' : list string) :
  (∀ key, key ∈ ignored ↔ key ∈ ignored') →
  init path document ignored = init path document ignored'.
Proof.
  intros H. unfold init. f_equal. f_equal. apply set_eq. intros key.
  by rewrite !elem_of_list_to_set.
Qed.

(** [compile_root], by the three cases of its lookup. *)
Lemma compile_root_global self fuel root_identifier element :
  global_elements self !! alias_lookup root_identifier = Some element →
  compile_root self fuel root_identifier =
  returned_or_recursion_error
    (pair (_snake_case root_identifier) <$>
       _expr_for_element_content self fuel element).
Proof.
  unfold compile_root. cbn zeta. intros ->.
  by destruct (_expr_for_element_content self fuel element).
Qed.

Lemma compile_root_complex self fuel root_identifier node :
  global_elements self !! alias_lookup root_identifier = None →
  complex_types self !! alias_lookup root_identifier = Some node →
  compile_root self fuel root_identifier =
  returned_or_recursion_error
    (pair (_snake_case root_identifier) <$>
       _expr_for_complex_type self fuel node (alias_lookup root_identifier)).
Proof.
  unfold compile_root. cbn zeta. intros -> ->.
  by destruct (_expr_for_complex_type self fuel node _).
Qed.

Lemma compile_root_missing self fuel root_identifier :
  global_elements self !! alias_lookup root_identifier = None →
  complex_types self !! alias_lookup root_identifier = None →
  compile_root self fuel root_identifier =
  ValueError (not_found_message root_identifier (schema_path self)).
Proof. unfold compile_root. cbn zeta. by intros -> ->. Qed.

Lemma returned_is_no_error {A} (o : option A) message :
  returned_or_recursion_error o ≠ ValueError message.
Proof. by destruct o. Qed.

(** The error is raised exactly when both lookups fail, whatever the fuel. *)
Lemma compile_root_error self fuel root_identifier message :
  compile_root self fuel root_identifier = ValueError message ↔
  message = not_found_message root_identifier (schema_path self) ∧
  global_elements self !! alias_lookup root_identifier = None ∧
  complex_types self !! alias_lookup root_identifier = None.
Proof.
  destruct (global_elements self !! alias_lookup root_identifier)
    as [element|] eqn:Hge.
  { rewrite (compile_root_global _ _ _ _ Hge).
    split; [by intros ?%returned_is_no_error|by intros (_ & [=] & _)]. }
  destruct (complex_types self !! alias_lookup root_identifier)
    as [node|] eqn:Hct.
  { rewrite (compile_root_complex _ _ _ _ Hge Hct).
    split; [by intros ?%returned_is_no_error|by intros (_ & _ & [=])]. }
  rewrite (compile_root_missing _ _ _ Hge Hct).
  split; [by intros [= <-]|by intros (-> & _)].
Qed.

(** More fuel does not change what [compile_root] returned or raised. *)
Lemma compile_root_mono self (fuel fuel' : nat) root_identifier :
  (fuel ≤ fuel')%nat →
  compile_root self fuel root_identifier ≠ RecursionError →
  compile_root self fuel' root_identifier = compile_root self fuel root_identifier.
Proof.
  intros Hle.
  destruct (Fuel.preserved_le self _ _ Hle) as (_ & _ & Helc & _ & Hcx).
  destruct (global_elements self !! alias_lookup root_identifier)
    as [element|] eqn:Hge.
  { rewrite !(compile_root_global _ _ _ _ Hge).
    destruct (_expr_for_element_content self fuel element) eqn:He; [|done].
    by rewrite (Helc _ _ He). }
  destruct (complex_types self !! alias_lookup root_identifier)
    as [node|] eqn:Hct.
  { rewrite !(compile_root_complex _ _ _ _ Hge Hct).
    destruct (_expr_for_complex_type self fuel node _) eqn:He; [|done].
    by rewrite (Hcx _ _ _ He). }
  by rewrite !(compile_root_missing _ _ _ Hge Hct).
Qed.

Lemma parse_recursion_error fuel path document root_identifier ignored :
  parse fuel path document root_identifier ignored = RecursionError ↔
  compile_root (init path document ignored) fuel root_identifier = RecursionError.
Proof.
  unfold parse. cbn zeta.
  by destruct (compile_root _ fuel root_identifier) as [[name expr]| |].
Qed.

Lemma parse_mono (fuel fuel' : nat) path document root_identifier ignored :
  (fuel ≤ fuel')%nat →
  parse fuel path document root_identifier ignored ≠ RecursionError →
  parse fuel' path document root_identifier ignored =
  parse fuel path document root_identifier ignored.
Proof.
  intros Hle Hfuel. rewrite parse_recursion_error in Hfuel.
  unfold parse. cbn zeta. by rewrite (compile_root_mono _ _ _ _ Hle Hfuel).
Qed.

(** C9: compilation is deterministic.  Two runs on the same parsed document
    and root identifier, with ignored keys that form the same set (in
    whatever order or multiplicity they were supplied), end the same way:
    if both return or raise, they return the same file name and
    byte-identical text, or raise the same error, however many nested calls
    each run was allowed. *)
Theorem compile_then_render_deterministic
    (path : string) (document : Element) (root_identifier : string)
    (ignored ignored' : list string) (fuel fuel' : nat) :
  (∀ key, key ∈ ignored ↔ key ∈ ignored') →
  parse fuel path document root_identifier ignored ≠ RecursionError →
  parse fuel' path document root_identifier ignored' ≠ RecursionError →
  parse fuel path document root_identifier ignored =
  parse fuel' path document root_identifier ignored'.
Proof.
  intros Hset H1 H2.
  assert (∀ f, parse f path document root_identifier ignored' =
               parse f path document root_identifier ignored) as Heq.
  { intros f. unfold parse. by rewrite (init_ignored_set _ _ _ _ Hset). }
  rewrite Heq in H2 |- *.
  rewrite <- (parse_mono fuel (fuel `max` fuel')) by (lia || done).
  rewrite <- (parse_mono fuel' (fuel `max` fuel')) by (lia || done).
  done.
Qed.

Lemma compile_then_render_deterministic_witness :
  parse 7 "capec.xsd" Sample.catalog "attack_pattern" ["id"; "level"] =
  parse 12 "capec.xsd" Sample.catalog "attack_pattern" ["level"; "id"; "level"].
Proof.
  apply (compile_then_render_deterministic
           "capec.xsd" Sample.catalog "attack_pattern"
           ["id"; "level"] ["level"; "id"; "level"] 7 12).
  - intros key. rewrite !elem_of_cons, !elem_of_nil. tauto.
  - by vm_compute.
  - by vm_compute.
Defined.

Lemma parse_error fuel path document root_identifier ignored message :
  parse fuel path document root_identifier ignored = ValueError message ↔
  compile_root (init path document ignored) fuel root_identifier
    = ValueError message.
Proof.
  unfold parse. cbn zeta.
  destruct (compile_root _ fuel root_identifier) as [[name expr]| |]; try done.
  split; by intros [= ->].
Qed.



(** The self-referential type of [Sample.forest], one call at a time. *)
Lemma tree_type_step (fuel : nat) context_name :
  let self := init "tree.xsd" Sample.forest [] in
  _expr_for_complex_type self (S (S (S (S fuel)))) Sample.tree_type context_name
  = (expr ← _expr_for_complex_type self fuel Sample.tree_type "child";
     Some (Object (_filter_fields self
                     [mkField "child" (Optional expr)]))).
Proof.
  cbn zeta. set (self := init "tree.xsd" Sample.forest []).
  assert (extension_of Sample.tree_type = None) as Hext by by vm_compute.
  rewrite (Complex.expr_for_complex_type_plain _ _ _ _ Hext). cbn zeta.
  replace (find Sample.tree_type (XSD_NS +:+ "sequence"))
    with (Some Sample.tree_sequence) by by vm_compute.
  replace (findall Sample.tree_sequence (XSD_NS +:+ "element"))
    with [Sample.tree_child] by by vm_compute.
  replace (findall Sample.tree_type (XSD_NS +:+ "attribute"))
    with (@nil Element) by by vm_compute.
  replace (get_default Sample.tree_child "minOccurs" "1") with "0"
    by by vm_compute.
  cbn [String.eqb Ascii.eqb Bool.eqb andb mapM].
  rewrite Occurs.element_to_field_S, Fuel.expr_for_element_content_S. cbn zeta.
  replace (get Sample.tree_child "type") with (Some "TreeType") by by vm_compute.
  cbn [truthy String.eqb negb default from_option id].
  destruct (Termination.complex_target_Some self "TreeType" "TreeType")
    as (node & Hnode & ->); [by vm_compute|].
  replace node with Sample.tree_type
    by (assert (complex_types self !! "TreeType" = Some Sample.tree_type)
          as Hct by (by vm_compute); congruence).
  replace (_snake_case (get_default Sample.tree_child "name" "item"))
    with "child" by by vm_compute.
  destruct (_expr_for_complex_type self fuel Sample.tree_type "child"); [|done].
  by vm_compute.
Qed.

Lemma tree_type_never_resolves (fuel : nat) context_name :
  _expr_for_complex_type (init "tree.xsd" Sample.forest []) fuel
    Sample.tree_type context_name = None.
Proof.
  revert context_name. induction fuel as [fuel IH] using lt_wf_ind.
  intros context_name.
  destruct fuel as [|[|[|[|fuel]]]];
    [by vm_compute..|].
  rewrite tree_type_step. by rewrite IH by lia.
Qed.


End Root.

(** * Further properties *)

(** ** The shape of normalized names and of stripped references *)

Module Names.

Lemma append_cons (c : ascii) (a b : string) : String c a +:+ b = String c (a +:+ b).
Proof. done. Qed.

Lemma shaped_chars b s c :
  shaped b s = true → no_upper s = true →
  Lines.occurs c s = true →
  Str.is_lower c || Str.is_digit c || Str.is_underscore c = true.
Proof.
  revert b. induction s as [|d s IH]; intros b; [done|].
  rewrite Normalizer.shaped_cons. cbn [no_upper Lines.occurs].
  intros Hs [Hd%negb_true_iff Hu]%andb_prop [Hc%Ascii.eqb_eq|Hc]%orb_prop.
  - subst d. unfold Str.is_alnum in Hs. rewrite Hd, orb_false_r in Hs.
    destruct (Str.is_digit c), (Str.is_lower c); try done.
    cbn in Hs. apply andb_prop in Hs as [[-> _]%andb_prop _]. done.
  - destruct (Str.is_alnum d); [by apply (IH false)|].
    apply andb_prop in Hs as [_ Hs]. by apply (IH true).
Qed.

Lemma shaped_no_double b (a t : string) :
  shaped b (a +:+ "__" +:+ t) = false.
Proof.
  revert b. induction a as [|c a IH]; intros b.
  - change (EmptyString +:+ "__" +:+ t) with (String "_" (String "_" t)).
    rewrite !Normalizer.shaped_cons. cbn. by rewrite andb_false_r.
  - rewrite append_cons, Normalizer.shaped_cons, !IH.
    by rewrite andb_false_r; destruct (Str.is_alnum c).
Qed.

Lemma rstrip_no_trailing (s : string) :
  Str.rstrip_underscore (s +:+ "_") ≠ s +:+ "_".
Proof.
  induction s as [|c s IH]; [done|].
  rewrite append_cons. cbn [Str.rstrip_underscore]. cbn zeta.
  destruct (Str.is_underscore c && _); [done|]. by intros [= H].
Qed.

(** The normalizer's results are made of lower-case letters, digits and
    underscores, and no underscore stands at either end or next to another
    one. *)
Theorem snake_case_shape (name : string) :
  (∀ c, Lines.occurs c (_snake_case name) = true →
        Str.is_lower c || Str.is_digit c || Str.is_underscore c = true) ∧
  (∀ s, _snake_case name ≠ "_" +:+ s) ∧
  (∀ s, _snake_case name ≠ s +:+ "_") ∧
  (∀ s t, _snake_case name ≠ s +:+ "__" +:+ t).
Proof.
  pose proof (Normalizer.snake_case_shaped name) as Hshaped.
  pose proof (Normalizer.snake_case_rstrip name) as Hstrip.
  assert (no_upper (_snake_case name) = true) as Hupper
    by apply Normalizer.no_upper_lower.
  repeat split.
  - intros c. by apply (shaped_chars true).
  - intros s Hs. by rewrite Hs in Hshaped.
  - intros s Hs. rewrite Hs in Hstrip. by apply rstrip_no_trailing in Hstrip.
  - intros s t Hs. by rewrite Hs, shaped_no_double in Hshaped.
Qed.

Lemma snake_case_shape_witness :
  Str.is_lower "k" || Str.is_digit "k" || Str.is_underscore "k" = true.
Proof.
  destruct (snake_case_shape "Skill_Level") as (H & _).
  apply (H "k"%char). by vm_compute.
Defined.

(** A normalized name is normalized again to itself. *)
Lemma snake_case_normalized (name : string) :
  normalized (_snake_case name) = true.
Proof.
  apply String.eqb_eq, Normalizer.snake_case_fixed.
  - apply Normalizer.snake_case_shaped.
  - apply Normalizer.no_upper_lower.
  - apply Normalizer.snake_case_rstrip.
Qed.

Lemma after_first_absent c s : Lines.occurs c s = false → Str.after_first c s = None.
Proof.
  induction s as [|d s IH]; [done|]. cbn [Lines.occurs Str.after_first].
  intros [-> Hs]%orb_false_elim. by apply IH.
Qed.

Lemma after_first_found c (a b : string) :
  Lines.occurs c a = false → Str.after_first c (a +:+ String c b) = Some b.
Proof.
  induction a as [|d a IH].
  - intros _. change (EmptyString +:+ String c b) with (String c b).
    cbn [Str.after_first]. by rewrite Ascii.eqb_refl.
  - cbn [Lines.occurs]. intros [Hd Ha]%orb_false_elim.
    rewrite append_cons. cbn [Str.after_first]. rewrite Hd. by apply IH.
Qed.

Lemma occurs_app c (a b : string) :
  Lines.occurs c (a +:+ b) = Lines.occurs c a || Lines.occurs c b.
Proof.
  induction a as [|d a IH]; [done|].
  rewrite append_cons. cbn [Lines.occurs]. by rewrite IH, orb_assoc.
Qed.

Lemma strip_ns_prefixed (pre local : string) :
  Lines.occurs "}" pre = false → Lines.occurs ":" pre = false →
  Lines.occurs "}" local = false →
  _strip_ns (pre +:+ ":" +:+ local) = local.
Proof.
  intros Hb Hc Hl. unfold _strip_ns.
  change (pre +:+ ":" +:+ local) with (pre +:+ String ":" local).
  rewrite after_first_absent, (after_first_found _ _ _ Hc).
  - by destruct pre.
  - rewrite occurs_app, Hb. cbn [Lines.occurs]. by rewrite Hl.
Qed.

Lemma strip_ns_plain (s : string) :
  Lines.occurs "}" s = false → Lines.occurs ":" s = false → _strip_ns s = s.
Proof.
  intros Hb Hc. unfold _strip_ns.
  rewrite (after_first_absent _ _ Hb), (after_first_absent _ _ Hc).
  by destruct s.
Qed.

(** [_strip_ns] undoes both ways of qualifying a local name: it returns
    [local] from [{namespace}local] whenever the namespace holds no closing
    brace, and from [prefix:local] whenever neither part holds a closing
    brace and the prefix holds no colon; a string with neither character is
    returned unchanged. *)
Theorem strip_ns_qualified :
  (∀ namespace local : string,
     Lines.occurs "}" namespace = false →
     _strip_ns ("{" +:+ namespace +:+ "}" +:+ local) = local) ∧
  (∀ pre local : string,
     Lines.occurs "}" pre = false → Lines.occurs ":" pre = false →
     Lines.occurs "}" local = false →
     _strip_ns (pre +:+ ":" +:+ local) = local) ∧
  (∀ s : string,
     Lines.occurs "}" s = false → Lines.occurs ":" s = false →
     _strip_ns s = s).
Proof.
  repeat split.
  - intros namespace local Hns. unfold _strip_ns.
    change ("{" +:+ namespace +:+ "}" +:+ local)
      with (String "{" (namespace +:+ String "}" local)).
    cbn [String.eqb Str.after_first]. cbn [Ascii.eqb Bool.eqb andb].
    by rewrite (after_first_found _ _ _ Hns).
  - apply strip_ns_prefixed.
  - apply strip_ns_plain.
Qed.

Lemma strip_ns_qualified_witness :
  _strip_ns (XSD_NS +:+ "complexType") = "complexType" ∧
  _strip_ns "capec:AttackPatternType" = "AttackPatternType" ∧
  _strip_ns "TreeType" = "TreeType".
Proof.
  destruct strip_ns_qualified as (H1 & H2 & H3). split; [|split].
  - apply (H1 "http://www.w3.org/2001/XMLSchema" "complexType"). by vm_compute.
  - apply (H2 "capec" "AttackPatternType"); by vm_compute.
  - apply (H3 "TreeType"); by vm_compute.
Defined.

End Names.

(** ** Invariants of the resolved type expressions *)

Module Invariant.

(** Structural induction on a type expression and the expressions of its
    fields. *)
Lemma Expr_ind (P : Expr → Prop) :
  (∀ value, P (Scalar value)) →
  (∀ fields, Forall (λ f, P (field_expr f)) fields → P (Object fields)) →
  (∀ inner, P inner → P (List inner)) →
  (∀ inner, P inner → P (Optional inner)) →
  ∀ e, P e.
Proof.
  intros Hscalar Hobject Hlist Hoptional. fix IH 1.
  intros [value|fields|inner|inner];
    [apply Hscalar| |apply Hlist, IH|apply Hoptional, IH].
  apply Hobject. induction fields as [|[name expr] fields IHfields];
    constructor; [apply IH|apply IHfields].
Qed.

Lemma expr_forall_object on_scalar on_name fields :
  expr_forall on_scalar on_name (Object fields) =
  forallb (λ f, on_name (field_name f)
                && expr_forall on_scalar on_name (field_expr f)) fields.
Proof.
  induction fields as [|[name expr] fields IH]; [done|].
  cbn [forallb field_name field_expr]. rewrite <- IH. done.
Qed.

Lemma nesting_ok_object fields :
  nesting_ok (Object fields) = forallb (λ f, nesting_ok (field_expr f)) fields.
Proof.
  induction fields as [|[name expr] fields IH]; [done|].
  cbn [forallb field_expr]. rewrite <- IH. done.
Qed.

Lemma mapM_Forall {A B} (f : A → option B) (R : B → Prop) (l : list A) (k : list B) :
  (∀ x y, f x = Some y → R y) → mapM f l = Some k → Forall R k.
Proof.
  intros Hf. rewrite mapM_Some. induction 1; constructor; eauto.
Qed.

(** What holds of every expression and field that the resolver builds,
    given that it holds of the leaves and is kept by each construction. *)
Section Principle.

Variable self : XSDSchemaCompiler.
Variable P : Expr → Prop.
Variable Q : Field → Prop.

Hypothesis P_simple : ∀ node, P (_expr_for_simple_type node).
Hypothesis P_builtin : ∀ type_name, P (Scalar (_builtin_scalar type_name)).
Hypothesis P_structured : P (Scalar "structured_text").
Hypothesis P_string : P (Scalar "string").
Hypothesis P_list : ∀ e, P e → P (List e).
Hypothesis P_object : ∀ fields, Forall Q fields → P (Object (_filter_fields self fields)).
Hypothesis Q_base : ∀ e context_name, P e → Q (base_field e context_name).
Hypothesis Q_attribute :
  ∀ raw e (required : bool),
    P e → Q (mkField (_snake_case raw) (if negb required then Optional e else e)).
Hypothesis Q_element :
  ∀ raw e node, P e → Q (mkField (_snake_case raw) (_element_occurs_wrapped e node)).

Lemma resolver_invariant (fuel : nat) :
  (∀ type_name context_name e,
     _expr_for_type_name self fuel type_name context_name = Some e → P e) ∧
  (∀ attr f, _attribute_to_field self fuel attr = Some f → Q f) ∧
  (∀ node e, _expr_for_element_content self fuel node = Some e → P e) ∧
  (∀ node f, _element_to_field self fuel node = Some f → Q f) ∧
  (∀ node context_name e,
     _expr_for_complex_type self fuel node context_name = Some e → P e).
Proof.
  induction fuel as [|fuel (IHtn & IHattr & IHelc & IHelf & IHcx)];
    [by repeat split|].
  repeat split.
  - intros type_name context_name e. rewrite Fuel.expr_for_type_name_S. cbn zeta.
    intros H. repeat case_match; try (injection H as <-); eauto.
  - intros attr f. rewrite Attribute.attribute_to_field_S.
    intros (e & He & [= <-])%bind_Some. apply Q_attribute.
    unfold attribute_type_expr in He. cbn zeta in He.
    repeat case_match; try (injection He as <-); eauto.
  - intros node e. rewrite Fuel.expr_for_element_content_S. cbn zeta.
    intros H. repeat case_match; try (injection H as <-); eauto.
  - intros node f. rewrite Occurs.element_to_field_S.
    intros (e & He & [= <-])%bind_Some. apply Q_element. eauto.
  - intros node context_name e.
    destruct (extension_of node) as [extension|] eqn:Hext.
    + rewrite (Complex.expr_for_complex_type_extension _ _ _ _ _ Hext).
      intros (base & Hbase & (attrs & Hattrs & [= <-])%bind_Some)%bind_Some.
      apply (P_object (base_field base context_name :: attrs)).
      constructor; [apply Q_base; eauto|].
      by apply (mapM_Forall _ _ _ _ IHattr Hattrs).
    + rewrite (Complex.expr_for_complex_type_plain _ _ _ _ Hext). cbn zeta.
      intros H. repeat case_match;
        repeat (apply bind_Some in H as (? & ? & H));
        injection H as <-;
        try (apply P_list; eauto);
        try (apply P_object; rewrite ?Forall_app; repeat split;
             first [done | by eapply mapM_Forall; [exact IHelf|]
                   | by eapply mapM_Forall; [exact IHattr|]]).
Qed.

(** The same, of what [compile_root] returns. *)
Lemma compile_root_invariant (fuel : nat) root_identifier name e :
  compile_root self fuel root_identifier = Returned (name, e) →
  name = _snake_case root_identifier ∧ P e.
Proof.
  destruct (resolver_invariant fuel) as (_ & _ & Helc & _ & Hcx).
  destruct (global_elements self !! alias_lookup root_identifier)
    as [element|] eqn:Hge.
  { rewrite (Root.compile_root_global _ _ _ _ Hge).
    destruct (_expr_for_element_content self fuel element) as [e'|] eqn:He;
      [|done].
    intros [= <- <-]. eauto. }
  destruct (complex_types self !! alias_lookup root_identifier)
    as [node|] eqn:Hct.
  { rewrite (Root.compile_root_complex _ _ _ _ Hge Hct).
    destruct (_expr_for_complex_type self fuel node _) as [e'|] eqn:He; [|done].
    intros [= <- <-]. eauto. }
  by rewrite (Root.compile_root_missing _ _ _ Hge Hct).
Qed.

End Principle.

End Invariant.

Module Wellformed.

Lemma dict_get_forall (p : string → bool) mapping key dflt :
  forallb (λ entry, p entry.2) mapping = true → p dflt = true →
  p (dict_get mapping key dflt) = true.
Proof.
  induction mapping as [|[k v] mapping IH]; [done|].
  cbn [forallb dict_get snd]. intros [Hv Hrest]%andb_prop Hd.
  destruct (String.eqb k key); auto.
Qed.

Lemma builtin_scalar_kind type_name : scalar_kind (_builtin_scalar type_name) = true.
Proof. unfold _builtin_scalar. by apply dict_get_forall. Qed.

Lemma enum_scalar_kind body : scalar_kind ("enum(" +:+ body) = true.
Proof. unfold scalar_kind. apply orb_true_intro. right. by destruct body. Qed.

Lemma base_value_name_normalized base_scalar context_name :
  normalized (_base_value_name base_scalar context_name) = true.
Proof. unfold _base_value_name. by repeat case_match. Qed.

(** Scalars that satisfy [on_scalar] and names that satisfy [on_name], for
    predicates that the resolver's leaves and names satisfy. *)
Section Forall.

Variable self : XSDSchemaCompiler.
Variables on_scalar on_name : string → bool.

Hypothesis scalar_builtin : ∀ type_name, on_scalar (_builtin_scalar type_name) = true.
Hypothesis scalar_string : on_scalar "string" = true.
Hypothesis scalar_structured : on_scalar "structured_text" = true.
Hypothesis scalar_enum : ∀ body, on_scalar ("enum(" +:+ body) = true.
Hypothesis name_kept :
  ∀ name, normalized name = true → name ∉ ignored_keys self → on_name name = true.

Local Abbreviation P := (λ e : Expr, expr_forall on_scalar on_name e = true).
Local Abbreviation Q :=
  (λ f : Field, normalized (field_name f) = true ∧ P (field_expr f)).

Lemma forall_simple node : P (_expr_for_simple_type node).
Proof.
  unfold _expr_for_simple_type. repeat case_match; cbn [expr_forall]; auto.
Qed.

Lemma forall_object fields : Forall Q fields → P (Object (_filter_fields self fields)).
Proof.
  intros Hfields. cbn beta. rewrite Invariant.expr_forall_object.
  apply forallb_forall. intros f [Hf Hkeep]%filter_In.
  rewrite Forall_forall in Hfields. destruct (Hfields f Hf) as [Hname Hexpr].
  cbn beta in Hexpr.
  rewrite Hexpr, andb_true_r. apply name_kept; [done|].
  apply negb_true_iff in Hkeep. by apply bool_decide_eq_false in Hkeep.
Qed.

Lemma forall_base e context_name : P e → Q (base_field e context_name).
Proof.
  intros He. destruct e; (split; [|done]); cbn [base_field field_name];
    by apply base_value_name_normalized || done.
Qed.

Lemma forall_attribute raw e (required : bool) :
  P e → Q (mkField (_snake_case raw) (if negb required then Optional e else e)).
Proof.
  intros He. split; [apply Names.snake_case_normalized|].
  by destruct required.
Qed.

Lemma forall_element raw e node :
  P e → Q (mkField (_snake_case raw) (_element_occurs_wrapped e node)).
Proof.
  intros He. split; [apply Names.snake_case_normalized|].
  cbn [field_expr]. unfold _element_occurs_wrapped. cbn zeta.
  by repeat case_match.
Qed.

Lemma compile_root_forall (fuel : nat) root_identifier name e :
  compile_root self fuel root_identifier = Returned (name, e) →
  normalized name = true ∧ expr_forall on_scalar on_name e = true.
Proof.
  intros H.
  destruct (Invariant.compile_root_invariant self P Q
              forall_simple scalar_builtin scalar_structured scalar_string
              (λ e' He', He') forall_object forall_base forall_attribute
              forall_element fuel root_identifier name e H) as [-> He].
  split; [apply Names.snake_case_normalized|done].
Qed.

End Forall.

(** Every scalar of a compiled type expression is one of the six scalar
    keywords ([string], [int], [bool], [date], [float], [structured_text])
    or an enumeration descriptor [enum(...)]. *)
Theorem compiled_scalars_are_kinds
    (self : XSDSchemaCompiler) (fuel : nat) (root_identifier name : string)
    (e : Expr) :
  compile_root self fuel root_identifier = Returned (name, e) →
  expr_forall scalar_kind (λ _, true) e = true.
Proof.
  intros H.
  exact (proj2 (compile_root_forall self scalar_kind (λ _, true)
                  builtin_scalar_kind eq_refl eq_refl enum_scalar_kind
                  (λ _ _ _, eq_refl) fuel root_identifier name e H)).
Qed.

(** The name returned with a compiled type expression and every field name
    in it, at any depth, are normalized: the normalizer leaves them
    unchanged. *)
Theorem compiled_names_are_normalized
    (self : XSDSchemaCompiler) (fuel : nat) (root_identifier name : string)
    (e : Expr) :
  compile_root self fuel root_identifier = Returned (name, e) →
  _snake_case name = name ∧
  expr_forall (λ _, true) normalized e = true.
Proof.
  intros H.
  destruct (compile_root_forall self (λ _, true) normalized
              (λ _, eq_refl) eq_refl eq_refl (λ _, eq_refl)
              (λ _ Hname _, Hname) fuel root_identifier name e H) as [Hn He].
  split; [by apply String.eqb_eq|done].
Qed.

(** No field of a compiled type expression, at any depth, bears a name of
    the ignore set. *)
Theorem compiled_fields_are_not_ignored
    (self : XSDSchemaCompiler) (fuel : nat) (root_identifier name : string)
    (e : Expr) :
  compile_root self fuel root_identifier = Returned (name, e) →
  expr_forall (λ _, true)
    (λ field, negb (bool_decide (field ∈ ignored_keys self))) e = true.
Proof.
  intros H.
  refine (proj2 (compile_root_forall self (λ _, true)
                   (λ field, negb (bool_decide (field ∈ ignored_keys self)))
                   (λ _, eq_refl) eq_refl eq_refl (λ _, eq_refl) _
                   fuel root_identifier name e H)).
  intros field _ Hfield. by rewrite bool_decide_eq_false_2.
Qed.

Lemma compiled_scalars_are_kinds_witness :
  ∃ name e,
    compile_root (init "capec.xsd" Sample.catalog []) 8 "attack_pattern"
      = Returned (name, e) ∧
    expr_forall scalar_kind (λ _, true) e = true.
Proof.
  eexists _, _. split; [by vm_compute|].
  apply (compiled_scalars_are_kinds
           (init "capec.xsd" Sample.catalog []) 8 "attack_pattern"
           "attack_pattern").
  by vm_compute.
Defined.

Lemma compiled_names_are_normalized_witness :
  ∃ name e,
    compile_root (init "capec.xsd" Sample.catalog []) 8 "attack_pattern"
      = Returned (name, e) ∧
    _snake_case name = name ∧
    expr_forall (λ _, true) normalized e = true.
Proof.
  eexists _, _. split; [by vm_compute|].
  apply (compiled_names_are_normalized
           (init "capec.xsd" Sample.catalog []) 8 "attack_pattern").
  by vm_compute.
Defined.

Lemma compiled_fields_are_not_ignored_witness :
  ∃ name e,
    compile_root (init "capec.xsd" Sample.catalog ["level"; "id"]) 8
      "attack_pattern" = Returned (name, e) ∧
    expr_forall (λ _, true)
      (λ field,
         negb (bool_decide (field ∈ (list_to_set ["level"; "id"] : gset string))))
      e = true.
Proof.
  eexists _, _. split; [by vm_compute|].
  apply (compiled_fields_are_not_ignored
           (init "capec.xsd" Sample.catalog ["level"; "id"]) 8 "attack_pattern"
           "attack_pattern").
  by vm_compute.
Defined.

(** In a compiled type expression an [Optional] never stands directly inside
    a [List] or another [Optional], and the expression itself is not an
    [Optional]: optionality only ever wraps the whole expression of a field. *)
Theorem compiled_optional_wraps_fields_only
    (self : XSDSchemaCompiler) (fuel : nat) (root_identifier name : string)
    (e : Expr) :
  compile_root self fuel root_identifier = Returned (name, e) →
  is_optional e = false ∧ nesting_ok e = true.
Proof.
  intros H.
  destruct (Invariant.compile_root_invariant self
              (λ e, is_optional e = false ∧ nesting_ok e = true)
              (λ f, nesting_ok (field_expr f) = true)) with (10 := H)
    as [_ He]; try done.
  - intros node. unfold _expr_for_simple_type. by repeat case_match.
  - intros e' [Hopt Hnest]. cbn [is_optional nesting_ok]. by rewrite Hopt, Hnest.
  - intros fields Hfields. split; [done|].
    rewrite Invariant.nesting_ok_object. apply forallb_forall.
    intros f [Hf _]%filter_In. rewrite Forall_forall in Hfields. auto.
  - intros e' context_name [_ Hnest]. by destruct e'.
  - intros raw e' required [Hopt Hnest]. cbn [field_expr].
    destruct required; cbn [negb nesting_ok]; by rewrite ?Hopt, ?Hnest.
  - intros raw e' node [Hopt Hnest]. cbn [field_expr].
    unfold _element_occurs_wrapped. cbn zeta.
    repeat case_match; cbn [negb nesting_ok is_optional];
      by rewrite ?Hopt, ?Hnest.
Qed.

Lemma compiled_optional_wraps_fields_only_witness :
  ∃ name e,
    compile_root (init "capec.xsd" Sample.catalog []) 8 "attack_pattern"
      = Returned (name, e) ∧
    is_optional e = false ∧ nesting_ok e = true.
Proof.
  eexists _, _. split; [by vm_compute|].
  apply (compiled_optional_wraps_fields_only
           (init "capec.xsd" Sample.catalog []) 8 "attack_pattern"
           "attack_pattern").
  by vm_compute.
Defined.

End Wellformed.

(** ** The ignore set only hides fields *)

Module Pruning.

Lemma prune_object ignored fields :
  prune ignored (Object fields) =
  Object (prune_field ignored <$>
            List.filter (λ f, negb (bool_decide (field_name f ∈ ignored))) fields).
Proof.
  cbn [prune]. f_equal.
  induction fields as [|[name expr] fields IH]; [done|].
  cbn [List.filter field_name]. rewrite IH.
  by destruct (bool_decide (name ∈ ignored)).
Qed.

Lemma prune_simple ignored node :
  prune ignored (_expr_for_simple_type node) = _expr_for_simple_type node.
Proof. unfold _expr_for_simple_type. by repeat case_match. Qed.

Lemma prune_occurs ignored e node :
  _element_occurs_wrapped (prune ignored e) node =
  prune ignored (_element_occurs_wrapped e node).
Proof. unfold _element_occurs_wrapped. cbn zeta. by repeat case_match. Qed.

Lemma prune_base ignored e context_name :
  base_field (prune ignored e) context_name =
  prune_field ignored (base_field e context_name).
Proof. by destruct e. Qed.

Lemma mapM_fmap {A B} (f f' : A → option B) (g : B → B) (l : list A) :
  (∀ x, f' x = g <$> f x) → mapM f' l = fmap g <$> mapM f l.
Proof.
  intros H. induction l as [|x l IH]; [done|].
  cbn [mapM]. rewrite H, IH.
  by destruct (f x), (mapM f l).
Qed.

Section Wider.

Variable self : XSDSchemaCompiler.
Variable ignored : gset string.
Hypothesis wider : ignored_keys self ⊆ ignored.

Lemma filter_prune fields :
  Object (_filter_fields (with_ignored self ignored)
            (prune_field ignored <$> fields)) =
  prune ignored (Object (_filter_fields self fields)).
Proof.
  rewrite prune_object. f_equal. unfold _filter_fields.
  cbn [with_ignored ignored_keys].
  induction fields as [|[name expr] fields IH]; [done|].
  cbn [fmap list_fmap List.filter prune_field field_name field_expr].
  destruct (decide (name ∈ ignored)) as [Hin|Hout].
  - rewrite (bool_decide_eq_true_2 _ Hin). cbn [negb].
    destruct (bool_decide (name ∈ ignored_keys self)); cbn [negb List.filter field_name].
    + apply IH.
    + rewrite (bool_decide_eq_true_2 _ Hin). apply IH.
  - rewrite (bool_decide_eq_false_2 _ Hout). cbn [negb].
    rewrite bool_decide_eq_false_2 by set_solver.
    cbn [negb List.filter field_name].
    rewrite (bool_decide_eq_false_2 _ Hout). cbn [negb fmap list_fmap].
    f_equal. apply IH.
Qed.

Lemma pruned_resolution (fuel : nat) :
  (∀ type_name context_name,
     _expr_for_type_name (with_ignored self ignored) fuel type_name context_name
     = prune ignored <$> _expr_for_type_name self fuel type_name context_name) ∧
  (∀ attr,
     _attribute_to_field (with_ignored self ignored) fuel attr
     = prune_field ignored <$> _attribute_to_field self fuel attr) ∧
  (∀ node,
     _expr_for_element_content (with_ignored self ignored) fuel node
     = prune ignored <$> _expr_for_element_content self fuel node) ∧
  (∀ node,
     _element_to_field (with_ignored self ignored) fuel node
     = prune_field ignored <$> _element_to_field self fuel node) ∧
  (∀ node context_name,
     _expr_for_complex_type (with_ignored self ignored) fuel node context_name
     = prune ignored <$> _expr_for_complex_type self fuel node context_name).
Proof.
  induction fuel as [|fuel (IHtn & IHattr & IHelc & IHelf & IHcx)];
    [by repeat split|].
  repeat split.
  - intros type_name context_name. rewrite !Fuel.expr_for_type_name_S.
    cbn [with_ignored simple_types complex_types]. cbn zeta.
    repeat case_match; try done.
    cbn [fmap option_fmap option_map]. by rewrite prune_simple.
  - intros attr. rewrite !Attribute.attribute_to_field_S.
    assert (attribute_type_expr (with_ignored self ignored) fuel attr =
            prune ignored <$> attribute_type_expr self fuel attr) as ->.
    { unfold attribute_type_expr. cbn zeta. repeat case_match; try done.
      cbn [fmap option_fmap option_map]. by rewrite prune_simple. }
    destruct (attribute_type_expr self fuel attr) as [e|]; [|done].
    cbn. by destruct (bool_decide _).
  - intros node. rewrite !Fuel.expr_for_element_content_S. cbn zeta.
    repeat case_match; try done.
    cbn [fmap option_fmap option_map]. by rewrite prune_simple.
  - intros node. rewrite !Occurs.element_to_field_S, IHelc.
    destruct (_expr_for_element_content self fuel node) as [e|]; [|done].
    cbn. by rewrite prune_occurs.
  - intros node context_name.
    destruct (extension_of node) as [extension|] eqn:Hext.
    + rewrite !(Complex.expr_for_complex_type_extension _ _ _ _ _ Hext), IHtn.
      rewrite (mapM_fmap _ _ _ _ IHattr).
      destruct (_expr_for_type_name self fuel _ _) as [base|]; [|done].
      destruct (mapM (_attribute_to_field self fuel) _) as [attrs|]; [|done].
      cbn [mbind option_bind fmap option_fmap option_map]. f_equal.
      rewrite prune_base. apply (filter_prune (_ :: _)).
    + rewrite !(Complex.expr_for_complex_type_plain _ _ _ _ Hext). cbn zeta.
      destruct (find node (XSD_NS +:+ "sequence")) as [sequence|];
        [destruct (findall sequence (XSD_NS +:+ "element")) as [|child [|]];
         destruct (findall node (XSD_NS +:+ "attribute")) as [|];
         try destruct (_ && _)|];
        rewrite ?IHelc, ?(mapM_fmap _ _ _ _ IHelf), ?(mapM_fmap _ _ _ _ IHattr);
        repeat match goal with
        | |- context [_expr_for_element_content self fuel ?n] =>
            destruct (_expr_for_element_content self fuel n)
        | |- context [mapM (_element_to_field self fuel) ?l] =>
            destruct (mapM (_element_to_field self fuel) l)
        | |- context [mapM (_attribute_to_field self fuel) ?l] =>
            destruct (mapM (_attribute_to_field self fuel) l)
        end;
        cbn [mbind option_bind fmap option_fmap option_map]; try done;
        f_equal; rewrite ?app_nil_r, <- ?fmap_app; by rewrite <- filter_prune.
Qed.

End Wider.

(** Compiling with a larger ignore set gives the expression compiled with
    the smaller one, with the fields named in the larger set removed at
    every depth; nothing else changes, neither the returned name nor an
    error. *)
Theorem ignoring_more_only_removes_fields
    (self : XSDSchemaCompiler) (ignored : gset string) (fuel : nat)
    (root_identifier : string) :
  ignored_keys self ⊆ ignored →
  compile_root (with_ignored self ignored) fuel root_identifier =
  match compile_root self fuel root_identifier with
  | Returned (name, e) => Returned (name, prune ignored e)
  | ValueError message => ValueError message
  | RecursionError => RecursionError
  end.
Proof.
  intros Hsub.
  destruct (pruned_resolution self ignored Hsub fuel) as (_ & _ & Helc & _ & Hcx).
  destruct (global_elements self !! alias_lookup root_identifier)
    as [element|] eqn:Hge.
  { rewrite (Root.compile_root_global (with_ignored self ignored) _ _ element)
      by exact Hge.
    rewrite (Root.compile_root_global self _ _ element) by exact Hge.
    rewrite Helc. by destruct (_expr_for_element_content self fuel element). }
  destruct (complex_types self !! alias_lookup root_identifier)
    as [node|] eqn:Hct.
  { rewrite (Root.compile_root_complex (with_ignored self ignored) _ _ node)
      by done.
    rewrite (Root.compile_root_complex self _ _ node) by done.
    rewrite Hcx. by destruct (_expr_for_complex_type self fuel node _). }
  rewrite (Root.compile_root_missing (with_ignored self ignored)) by done.
  by rewrite (Root.compile_root_missing self) by done.
Qed.

Lemma ignoring_more_only_removes_fields_witness :
  compile_root
    (with_ignored (init "capec.xsd" Sample.catalog ["id"])
       (list_to_set ["id"; "level"])) 8 "attack_pattern" =
  match compile_root (init "capec.xsd" Sample.catalog ["id"]) 8
          "attack_pattern" with
  | Returned (name, e) => Returned (name, prune (list_to_set ["id"; "level"]) e)
  | ValueError message => ValueError message
  | RecursionError => RecursionError
  end.
Proof.
  apply (ignoring_more_only_removes_fields
           (init "capec.xsd" Sample.catalog ["id"])
           (list_to_set ["id"; "level"]) 8 "attack_pattern").
  apply (bool_decide_eq_true_1 _ (Decision0 := _)). by vm_compute.
Defined.

End Pruning.

(** ** The renderer *)

Module Rendering.

Lemma prefix_spec (a l : string) :
  String.prefix a l = true ↔ ∃ x, l = a +:+ x.
Proof.
  revert l. induction a as [|c a IH]; intros l.
  - split; [intros _; by exists l|intros _; by destruct l].
  - destruct l as [|d l]; cbn [String.prefix].
    + split; [done|by intros [x [=]]].
    + destruct (ascii_dec c d) as [->|Hne].
      * rewrite IH. split; intros [x Hx]; exists x.
        -- by rewrite Names.append_cons, Hx.
        -- rewrite Names.append_cons in Hx. by injection Hx.
      * split; [done|]. intros [x Hx].
        rewrite Names.append_cons in Hx. by injection Hx.
Qed.

Lemma pad_S (i : nat) : Str.repeat indent_unit (S i) = Str.repeat indent_unit i +:+ indent_unit.
Proof.
  induction i as [|i IH]; [done|].
  change (Str.repeat indent_unit (S (S i))) with (indent_unit +:+ Str.repeat indent_unit (S i)).
  rewrite IH at 1. by rewrite <- Enumeration.append_assoc.
Qed.

Lemma length_append (a b : string) :
  String.length (a +:+ b) = (String.length a + String.length b)%nat.
Proof.
  induction a as [|c a IH]; [done|].
  rewrite Names.append_cons. cbn [String.length]. by rewrite IH.
Qed.

(** The loop over the fields of an object. *)
Lemma render_object fields (i : nat) :
  _render_expr (Object fields) i =
  match flat_map (λ f, _render_field f i) fields with
  | [] => [Str.repeat indent_unit i +:+ "{}"]
  | line :: rest => line :: rest
  end.
Proof.
  cbn [_render_expr]. cbn zeta.
  match goal with
  | |- match ?lines with _ => _ end = _ =>
      assert (lines = flat_map (λ f, _render_field f i) fields) as ->
  end.
  { induction fields as [|f fields IH]; [done|]. cbn [flat_map]. by rewrite IH. }
  by destruct (flat_map _ fields).
Qed.

Lemma render_field_unfold name e (i : nat) :
  _render_field (mkField name e) i =
  if negb (is_scalar e || is_optional e
           || match e with List _ => true | _ => false end)
  then [Str.repeat indent_unit i +:+ name +:+ ":"] ++ _render_expr e (S i)
  else [Str.repeat indent_unit i +:+ name +:+ ": "
        +:+ match _render_expr e i with
            | line :: _ => Str.drop (String.length (Str.repeat indent_unit i)) line
            | [] => "string"
            end] ++ tail (_render_expr e i).
Proof. by destruct e. Qed.

(** Rendering one level deeper puts one more indentation unit in front of
    every line, and changes nothing else. *)
Theorem render_deeper_shifts_lines (e : Expr) (i : nat) :
  _render_expr e (S i) = (λ line, indent_unit +:+ line) <$> _render_expr e i.
Proof.
  revert i. induction e as [value|fields IH|inner IH|inner IH]
    using Invariant.Expr_ind; intros i.
  - done.
  - rewrite !render_object.
    assert (flat_map (λ f, _render_field f (S i)) fields =
            (λ line, indent_unit +:+ line)
              <$> flat_map (λ f, _render_field f i) fields) as ->.
    { induction IH as [|[name e] fields He _ IHfields]; [done|].
      cbn [flat_map]. rewrite fmap_app, IHfields. f_equal.
      cbn [field_expr] in He. rewrite !render_field_unfold.
      destruct (negb _).
      - rewrite (He (S i)). done.
      - rewrite (He i). destruct (_render_expr e i) as [|line rest]; done. }
    by destruct (flat_map _ fields).
  - cbn [_render_expr]. destruct inner; try done;
      cbn zeta; rewrite (IH (S i)), !fmap_app; done.
  - cbn [_render_expr]. destruct inner; try done;
      cbn zeta; rewrite (IH (S i)), !fmap_app; done.
Qed.

Lemma prefix_pad_weaken (i : nat) line :
  String.prefix (Str.repeat indent_unit (S i)) line = true →
  String.prefix (Str.repeat indent_unit i) line = true.
Proof.
  rewrite !prefix_spec, pad_S. intros [x ->]. exists (indent_unit +:+ x).
  by rewrite Enumeration.append_assoc.
Qed.

Lemma prefix_pad (i : nat) text :
  String.prefix (Str.repeat indent_unit i) (Str.repeat indent_unit i +:+ text) = true.
Proof. apply prefix_spec. by exists text. Qed.

Lemma Forall_tail {A} (R : A → Prop) (l : list A) : Forall R l → Forall R (tail l).
Proof. by destruct 1. Qed.

Lemma render_field_lines name e (i : nat) :
  (∀ j : nat, _render_expr e j ≠ [] ∧
      Forall (λ line, String.prefix (Str.repeat indent_unit j) line = true)
             (_render_expr e j)) →
  _render_field (mkField name e) i ≠ [] ∧
  Forall (λ line, String.prefix (Str.repeat indent_unit i) line = true)
         (_render_field (mkField name e) i).
Proof.
  intros He. rewrite render_field_unfold. destruct (negb _).
  - split; [done|]. constructor.
    + apply prefix_pad.
    + destruct (He (S i)) as [_ H]. revert H. apply Forall_impl.
      intros line. apply prefix_pad_weaken.
  - split; [done|]. constructor.
    + apply prefix_pad.
    + destruct (He i) as [_ H]. by apply Forall_tail.
Qed.

(** The renderer always produces at least one line, and every line starts
    with the indentation it was asked for; the fall-back text that
    [_render_field] and [render] keep for an empty rendering is never used. *)
Theorem render_lines_are_indented (e : Expr) (i : nat) :
  _render_expr e i ≠ [] ∧
  Forall (λ line, ∃ body, line = Str.repeat indent_unit i +:+ body)
         (_render_expr e i).
Proof.
  enough (_render_expr e i ≠ [] ∧
          Forall (λ line, String.prefix (Str.repeat indent_unit i) line = true)
                 (_render_expr e i)) as [Hne Hall].
  { split; [done|]. revert Hall. apply Forall_impl. intros line.
    by rewrite prefix_spec. }
  revert i. induction e as [value|fields IH|inner IH|inner IH]
    using Invariant.Expr_ind; intros i.
  - split; [done|]. repeat constructor. apply prefix_pad.
  - rewrite render_object.
    assert (Forall (λ line, String.prefix (Str.repeat indent_unit i) line = true)
                   (flat_map (λ f, _render_field f i) fields)) as Hall.
    { induction IH as [|[name e] fields He _ IHfields]; [done|].
      cbn [flat_map]. apply Forall_app. split; [|done].
      by apply render_field_lines. }
    destruct (flat_map _ fields); [|done].
    split; [done|]. repeat constructor. apply prefix_pad.
  - assert (Forall (λ line, String.prefix (Str.repeat indent_unit i) line = true)
                   (_render_expr inner (S i))) as Hinner.
    { destruct (IH (S i)) as [_ H]. revert H. apply Forall_impl.
      intros line. apply prefix_pad_weaken. }
    cbn [_render_expr]. destruct inner; cbn zeta; (split; [done|]);
      rewrite ?Forall_app; repeat split; try done;
      repeat constructor; apply prefix_pad.
  - assert (Forall (λ line, String.prefix (Str.repeat indent_unit i) line = true)
                   (_render_expr inner (S i))) as Hinner.
    { destruct (IH (S i)) as [_ H]. revert H. apply Forall_impl.
      intros line. apply prefix_pad_weaken. }
    cbn [_render_expr]. destruct inner; cbn zeta; (split; [done|]);
      rewrite ?Forall_app; repeat split; try done;
      repeat constructor; apply prefix_pad.
Qed.

End Rendering.

(** ** From the rendered text to the mind map *)

Module Mindmap.

Lemma lstrip_pad (i : nat) s :
  Lines.lstrip (Str.repeat indent_unit i +:+ s) = Lines.lstrip s.
Proof.
  induction i as [|i IH]; [done|].
  change (Str.repeat indent_unit (S i) +:+ s)
    with (String " " (String " " (Str.repeat indent_unit i +:+ s))).
  cbn [Lines.lstrip]. exact IH.
Qed.

Lemma lstrip_spaces_pad (i : nat) s :
  Lines.lstrip_spaces (Str.repeat indent_unit i +:+ s) = Lines.lstrip_spaces s.
Proof.
  induction i as [|i IH]; [done|].
  change (Str.repeat indent_unit (S i) +:+ s)
    with (String " " (String " " (Str.repeat indent_unit i +:+ s))).
  cbn [Lines.lstrip_spaces]. exact IH.
Qed.

Lemma length_pad (i : nat) : String.length (Str.repeat indent_unit i) = (i * 2)%nat.
Proof.
  induction i as [|i IH]; [done|].
  change (Str.repeat indent_unit (S i))
    with (String " " (String " " (Str.repeat indent_unit i))).
  cbn [String.length]. rewrite IH. lia.
Qed.

Lemma lstrip_length s : (String.length (Lines.lstrip s) ≤ String.length s)%nat.
Proof.
  induction s as [|c s IH]; [done|]. cbn [Lines.lstrip].
  destruct (Lines.is_space c); cbn [String.length]; lia.
Qed.

Lemma rstrip_length s : (String.length (Lines.rstrip s) ≤ String.length s)%nat.
Proof.
  induction s as [|c s IH]; [done|]. cbn [Lines.rstrip]. cbn zeta.
  destruct (_ && _); cbn [String.length]; lia.
Qed.

Lemma lstrip_same_length s :
  String.length (Lines.lstrip s) = String.length s → Lines.lstrip s = s.
Proof.
  destruct s as [|c s]; [done|]. cbn [Lines.lstrip].
  destruct (Lines.is_space c); [|done].
  pose proof (lstrip_length s). cbn [String.length]. lia.
Qed.

(** A text without white space at either end is left alone by both
    one-sided strips. *)
Lemma strip_fixed s :
  Lines.strip s = s → Lines.lstrip s = s ∧ Lines.rstrip s = s.
Proof.
  unfold Lines.strip. intros H.
  assert (Lines.lstrip s = s) as Hl.
  { apply lstrip_same_length.
    pose proof (lstrip_length s). pose proof (rstrip_length (Lines.lstrip s)).
    rewrite H in *. lia. }
  by rewrite Hl in H.
Qed.

Lemma lstrip_spaces_fixed s : Lines.lstrip s = s → Lines.lstrip_spaces s = s.
Proof.
  destruct s as [|c s]; [done|]. cbn [Lines.lstrip Lines.lstrip_spaces].
  destruct (Lines.is_space c) eqn:Hc.
  - intros H. pose proof (lstrip_length s) as Hlen. rewrite H in Hlen.
    cbn [String.length] in Hlen. lia.
  - intros _. destruct (Ascii.eqb_spec c " ") as [->|]; done.
Qed.

(** A line of the schema text that is indented by [i] units becomes a node
    of depth [i + 1] that carries the text of the line, provided the text is
    ASCII, is not empty and has no white space at either end. *)
Theorem indented_line_becomes_node (i : nat) (body : string) :
  Lines.is_ascii body = true →
  Lines.strip body = body → body ≠ EmptyString →
  puml_line (Str.repeat indent_unit i +:+ body) =
  Some (Str.repeat "*" (S i) +:+ " " +:+ body).
Proof.
  intros _ Hstrip Hbody. destruct (strip_fixed _ Hstrip) as [Hl Hr].
  unfold puml_line, Lines.strip. rewrite lstrip_pad, Hl, Hr. cbn zeta.
  destruct (String.eqb_spec body EmptyString) as [|_]; [done|].
  rewrite lstrip_spaces_pad, (lstrip_spaces_fixed _ Hl).
  rewrite Rendering.length_append, length_pad.
  replace (i * 2 + String.length body - String.length body)%nat
    with (i * 2)%nat by lia.
  by rewrite Nat.div_mul, Nat.add_1_r by done.
Qed.

Lemma indented_line_becomes_node_witness :
  puml_line "    level: int" = Some "*** level: int".
Proof.
  apply (indented_line_becomes_node 2 "level: int"); by vm_compute.
Defined.

(** *** No rendered line is blank *)

Lemma occurs_lstrip c s :
  Lines.is_space c = false → Lines.occurs c s = true →
  Lines.occurs c (Lines.lstrip s) = true.
Proof.
  intros Hc. induction s as [|d s IH]; [done|].
  cbn [Lines.lstrip]. destruct (Lines.is_space d) eqn:Hd; [|done].
  cbn [Lines.occurs]. intros [Heq%Ascii.eqb_eq|H]%orb_prop; [congruence|auto].
Qed.

Lemma occurs_rstrip c s :
  Lines.is_space c = false → Lines.occurs c s = true →
  Lines.occurs c (Lines.rstrip s) = true.
Proof.
  intros Hc. induction s as [|d s IH]; [done|].
  cbn [Lines.rstrip Lines.occurs]. cbn zeta.
  intros [Heq%Ascii.eqb_eq|H]%orb_prop.
  - subst d. rewrite Hc. cbn [andb Lines.occurs]. by rewrite Ascii.eqb_refl.
  - specialize (IH H). destruct (Lines.rstrip s) as [|x r]; [done|].
    rewrite andb_false_r. cbn [Lines.occurs] in *. by rewrite IH, orb_true_r.
Qed.

Lemma marked_intro c line :
  Lines.occurs c line = true →
  c = ":"%char ∨ c = "<"%char ∨ c = ">"%char ∨ c = "{"%char →
  marked line = true.
Proof.
  unfold marked. intros Hc [-> | [-> | [-> | ->]]]; rewrite Hc;
    by rewrite ?orb_true_r.
Qed.

Lemma marked_not_blank line :
  marked line = true → String.eqb (Lines.strip line) EmptyString = false.
Proof.
  unfold marked, Lines.strip.
  intros [[[H|H]%orb_prop|H]%orb_prop|H]%orb_prop;
    apply occurs_lstrip, occurs_rstrip in H; try done;
    by destruct (Lines.rstrip _).
Qed.

Lemma marked_pad (i : nat) c (a b : string) :
  c = ":"%char ∨ c = "<"%char ∨ c = ">"%char ∨ c = "{"%char →
  marked (Str.repeat indent_unit i +:+ a +:+ String c b) = true.
Proof.
  intros Hc. apply (marked_intro c); [|done].
  rewrite !Names.occurs_app. cbn [Lines.occurs].
  by rewrite Ascii.eqb_refl, !orb_true_r.
Qed.

Lemma render_marked (e : Expr) (i : nat) :
  (is_scalar e = false → Forall (λ line, marked line = true) (_render_expr e i)) ∧
  Forall (λ line, marked line = true) (tail (_render_expr e i)).
Proof.
  revert i. induction e as [value|fields IH|inner IH|inner IH]
    using Invariant.Expr_ind; intros i.
  - by split.
  - enough (Forall (λ line, marked line = true) (_render_expr (Object fields) i))
      as H by (split; [done|by apply Rendering.Forall_tail]).
    rewrite Rendering.render_object.
    assert (Forall (λ line, marked line = true)
                   (flat_map (λ f, _render_field f i) fields)) as Hall.
    { induction IH as [|[name e] fields He _ IHfields]; [done|].
      cbn [flat_map]. apply Forall_app. split; [|done].
      cbn [field_expr] in He. rewrite Rendering.render_field_unfold.
      destruct (negb _) eqn:Hkind.
      - constructor; [apply (marked_pad i ":" name EmptyString); auto|].
        apply He. by destruct e.
      - constructor; [|apply He].
        apply (marked_pad i ":" name (String " " _)). auto. }
    destruct (flat_map _ fields); [|done].
    repeat constructor. apply (marked_pad i "{" EmptyString "}"). auto.
  - enough (Forall (λ line, marked line = true) (_render_expr (List inner) i))
      as H by (split; [done|by apply Rendering.Forall_tail]).
    cbn [_render_expr]. destruct (IH (S i)) as [Hinner _].
    assert (marked (Str.repeat indent_unit i +:+ "list<") = true) as Hopen
      by (apply (marked_pad i "<" "list" EmptyString); auto).
    assert (marked (Str.repeat indent_unit i +:+ ">") = true) as Hclose
      by (apply (marked_pad i ">" EmptyString EmptyString); auto).
    destruct inner as [value| | |]; cbn zeta.
    + repeat constructor.
      apply (marked_pad i "<" "list" (value +:+ ">")). auto.
    + constructor; [done|]. apply Forall_app. split; [by apply Hinner|].
      by repeat constructor.
    + constructor; [done|]. apply Forall_app. split; [by apply Hinner|].
      by repeat constructor.
    + constructor; [done|]. apply Forall_app. split; [by apply Hinner|].
      by repeat constructor.
  - enough (Forall (λ line, marked line = true) (_render_expr (Optional inner) i))
      as H by (split; [done|by apply Rendering.Forall_tail]).
    cbn [_render_expr]. destruct (IH (S i)) as [Hinner _].
    assert (marked (Str.repeat indent_unit i +:+ "optional<") = true) as Hopen
      by (apply (marked_pad i "<" "optional" EmptyString); auto).
    assert (marked (Str.repeat indent_unit i +:+ ">") = true) as Hclose
      by (apply (marked_pad i ">" EmptyString EmptyString); auto).
    destruct inner as [value| | |]; cbn zeta.
    + repeat constructor.
      apply (marked_pad i "<" "optional" (value +:+ ">")). auto.
    + constructor; [done|]. apply Forall_app. split; [by apply Hinner|].
      by repeat constructor.
    + constructor; [done|]. apply Forall_app. split; [by apply Hinner|].
      by repeat constructor.
    + constructor; [done|]. apply Forall_app. split; [by apply Hinner|].
      by repeat constructor.
Qed.

Lemma render_lines_marked root_name e :
  Forall (λ line, marked line = true) (render_lines root_name e).
Proof.
  destruct (render_marked e 0) as [_ Htail].
  destruct (render_marked e 1) as [Hall _].
  unfold render_lines.
  destruct e; cbn zeta; constructor; auto;
    first [apply (marked_pad 0 ":" root_name EmptyString)
          |apply (marked_pad 0 ":" root_name (String " " _))]; auto.
Qed.

(** *** The lines that are written are the lines that are read *)

Lemma free_of_app p (a b : string) :
  Lines.free_of p (a +:+ b) = Lines.free_of p a && Lines.free_of p b.
Proof.
  induction a as [|c a IH]; [done|].
  rewrite Names.append_cons. cbn [Lines.free_of]. by rewrite IH, andb_assoc.
Qed.

Lemma free_of_weaken (p q : ascii → bool) s :
  (∀ c, q c = true → p c = true) →
  Lines.free_of p s = true → Lines.free_of q s = true.
Proof.
  intros Hpq. induction s as [|c s IH]; [done|]. cbn [Lines.free_of].
  intros [Hc%negb_true_iff Hs]%andb_prop. rewrite (IH Hs), andb_true_r.
  apply negb_true_iff. destruct (q c) eqn:Hq; [|done].
  by rewrite (Hpq c Hq) in Hc.
Qed.

(** [Lines.plain], unfolded. *)
Local Abbreviation plain :=
  (Lines.free_of (λ c, Lines.is_linebreak c || Lines.non_ascii c)).

Lemma plain_unbroken s :
  plain s = true → Lines.free_of Lines.is_linebreak s = true.
Proof. apply free_of_weaken. by intros c ->. Qed.

Lemma plain_ascii s : plain s = true → Lines.is_ascii s = true.
Proof. apply free_of_weaken. intros c ->. apply orb_true_r. Qed.

Lemma free_of_pad (i : nat) : plain (Str.repeat indent_unit i) = true.
Proof.
  induction i as [|i IH]; [done|].
  change (Str.repeat indent_unit (S i))
    with (indent_unit +:+ Str.repeat indent_unit i).
  by rewrite free_of_app, IH.
Qed.

Lemma free_of_drop p (n : nat) s :
  Lines.free_of p s = true → Lines.free_of p (Str.drop n s) = true.
Proof.
  revert s. induction n as [|n IH]; intros [|c s]; try done.
  cbn [Lines.free_of Str.drop]. intros [_ H]%andb_prop. by apply IH.
Qed.

(** [splitlines] finds a line and the line feed after it. *)
Lemma splitlines_line line rest :
  Lines.free_of Lines.is_linebreak line = true →
  Lines.splitlines (line +:+ newline +:+ rest) = line :: Lines.splitlines rest.
Proof.
  induction line as [|c line IH]; [done|].
  cbn [Lines.free_of]. intros [Hc%negb_true_iff Hline]%andb_prop.
  rewrite Names.append_cons. cbn [Lines.splitlines].
  destruct (Ascii.eqb_spec c "013") as [->|_]; [done|].
  by rewrite Hc, (IH Hline).
Qed.

Lemma splitlines_join (lines : list string) :
  lines ≠ [] →
  Forall (λ line, Lines.free_of Lines.is_linebreak line = true) lines →
  Lines.splitlines (Str.join newline lines +:+ newline) = lines.
Proof.
  intros Hne Hall. induction Hall as [|line lines Hline Hall IH]; [done|].
  destruct lines as [|next lines].
  - exact (splitlines_line line EmptyString Hline).
  - change (Str.join newline (line :: next :: lines))
      with (line +:+ newline +:+ Str.join newline (next :: lines)).
    rewrite !Enumeration.append_assoc, (splitlines_line _ _ Hline).
    f_equal. by apply IH.
Qed.

Lemma render_text root_name e :
  render root_name e = Str.join newline (render_lines root_name e) +:+ newline.
Proof. by destruct e. Qed.

Lemma render_plain (e : Expr) (i : nat) :
  expr_forall plain plain e = true →
  Forall (λ line, plain line = true) (_render_expr e i).
Proof.
  revert i. induction e as [value|fields IH|inner IH|inner IH]
    using Invariant.Expr_ind; intros i.
  - cbn [expr_forall _render_expr]. intros Hv. repeat constructor.
    by rewrite free_of_app, free_of_pad, Hv.
  - rewrite Invariant.expr_forall_object, Rendering.render_object.
    intros Hfields.
    assert (Forall (λ line, plain line = true)
                   (flat_map (λ f, _render_field f i) fields)) as Hall.
    { induction IH as [|[name e] fields He _ IHfields]; [done|].
      cbn [forallb field_name field_expr] in Hfields, He.
      apply andb_prop in Hfields as [[Hname Hexpr]%andb_prop Hrest].
      cbn [flat_map]. apply Forall_app. split; [|by apply IHfields].
      rewrite Rendering.render_field_unfold. destruct (negb _).
      - constructor; [|by apply He].
        by rewrite !free_of_app, free_of_pad, Hname.
      - specialize (He i Hexpr).
        constructor; [|by apply Rendering.Forall_tail].
        rewrite !free_of_app, free_of_pad, Hname. cbn [andb Lines.free_of].
        destruct (_render_expr e i) as [|line rest]; [done|].
        apply free_of_drop. by inversion He. }
    destruct (flat_map _ fields); [|done].
    repeat constructor. by rewrite free_of_app, free_of_pad.
  - cbn [expr_forall]. intros Hinner. specialize (IH (S i) Hinner).
    cbn [_render_expr].
    assert (plain (Str.repeat indent_unit i +:+ "list<") = true) as Hopen
      by by rewrite free_of_app, free_of_pad.
    assert (plain (Str.repeat indent_unit i +:+ ">") = true) as Hclose
      by by rewrite free_of_app, free_of_pad.
    destruct inner as [value| | |]; cbn zeta;
      [|constructor; [done|]; apply Forall_app; split; [done|];
        by repeat constructor..].
    repeat constructor. cbn [expr_forall] in Hinner.
    rewrite !free_of_app, free_of_pad, Hinner. done.
  - cbn [expr_forall]. intros Hinner. specialize (IH (S i) Hinner).
    cbn [_render_expr].
    assert (plain (Str.repeat indent_unit i +:+ "optional<") = true) as Hopen
      by by rewrite free_of_app, free_of_pad.
    assert (plain (Str.repeat indent_unit i +:+ ">") = true) as Hclose
      by by rewrite free_of_app, free_of_pad.
    destruct inner as [value| | |]; cbn zeta;
      [|constructor; [done|]; apply Forall_app; split; [done|];
        by repeat constructor..].
    repeat constructor. cbn [expr_forall] in Hinner.
    rewrite !free_of_app, free_of_pad, Hinner. done.
Qed.

Lemma render_lines_plain root_name e :
  plain root_name = true → expr_forall plain plain e = true →
  Forall (λ line, plain line = true) (render_lines root_name e).
Proof.
  intros Hroot He. pose proof (render_plain e 0 He) as H0.
  pose proof (render_plain e 1 He) as H1.
  unfold render_lines.
  destruct e; cbn zeta;
    (constructor; [|first [done|by apply Rendering.Forall_tail]]);
    rewrite !free_of_app, Hroot; cbn [andb Lines.free_of]; try done;
    destruct (_render_expr _ 0) as [|line rest]; try done; by inversion H0.
Qed.

Lemma omap_all_some {A B} (f : A → option B) (l : list A) :
  Forall (λ x, is_Some (f x)) l →
  ∃ k, Forall2 (λ x y, f x = Some y) l k ∧ omap f l = k.
Proof.
  induction 1 as [|x l [y Hy] _ (k & Hk & Hom)]; [by exists []|].
  exists (y :: k). split; [by constructor|]. cbn [omap list_omap]. by rewrite Hy, Hom.
Qed.

(** The mind map follows the rendered schema line by line: when the root
    name and every scalar and field name of the expression are ASCII text
    without a line-boundary character, the rendered lines are ASCII, the
    text written by [render] is read back as exactly the rendered lines,
    none of them is skipped as blank, and each becomes one node, in order,
    between the opening line (and the title, if any) and the closing line. *)
Theorem mindmap_follows_rendered_lines
    (root_name : string) (e : Expr) (title : option string) :
  Lines.plain root_name = true →
  expr_forall Lines.plain Lines.plain e = true →
  Forall (λ line, Lines.is_ascii line = true) (render_lines root_name e) ∧
  Lines.splitlines (render root_name e) = render_lines root_name e ∧
  ∃ nodes : list string,
    Forall2 (λ line node, puml_line line = Some node)
      (render_lines root_name e) nodes ∧
    schema_txt_to_puml (render root_name e) title =
    Str.join newline
      (["@startmindmap"]
       ++ (if truthy title then ["title " +:+ default EmptyString title] else [])
       ++ nodes ++ ["@endmindmap"]) +:+ newline.
Proof.
  intros Hroot He.
  pose proof (render_lines_plain root_name e Hroot He) as Hplain.
  split.
  { revert Hplain. apply Forall_impl. intros line. apply plain_ascii. }
  assert (Lines.splitlines (render root_name e) = render_lines root_name e)
    as Hlines.
  { rewrite render_text. apply splitlines_join.
    - by destruct e.
    - revert Hplain. apply Forall_impl. intros line. apply plain_unbroken. }
  split; [done|].
  destruct (omap_all_some puml_line (render_lines root_name e))
    as (nodes & Hnodes & Hom).
  { pose proof (render_lines_marked root_name e) as Hmarked.
    revert Hmarked. apply Forall_impl. intros line Hline%marked_not_blank.
    unfold puml_line. rewrite Hline. by eexists. }
  exists nodes. split; [done|].
  unfold schema_txt_to_puml. cbn zeta. by rewrite Hlines, Hom.
Qed.

Lemma mindmap_follows_rendered_lines_witness :
  Forall (λ line, Lines.is_ascii line = true)
    (render_lines "severity" (List (_expr_for_simple_type Sample.severity))) ∧
  Lines.splitlines
    (render "severity" (List (_expr_for_simple_type Sample.severity))) =
  render_lines "severity" (List (_expr_for_simple_type Sample.severity)) ∧
  ∃ nodes : list string,
    Forall2 (λ line node, puml_line line = Some node)
      (render_lines "severity" (List (_expr_for_simple_type Sample.severity)))
      nodes ∧
    schema_txt_to_puml
      (render "severity" (List (_expr_for_simple_type Sample.severity)))
      (Some "severity mindmap") =
    Str.join newline
      (["@startmindmap"] ++ ["title severity mindmap"] ++ nodes
       ++ ["@endmindmap"]) +:+ newline.
Proof.
  apply (mindmap_follows_rendered_lines "severity"
           (List (_expr_for_simple_type Sample.severity))
           (Some "severity mindmap")); by vm_compute.
Defined.

End Mindmap.

(** ** What the resolver does not look at *)

Module Dispatch.

Lemma find_skip t a (before after : list Element) extra path :
  String.eqb (tag extra) path = false →
  find (mkElement t a (before ++ extra :: after)) path =
  find (mkElement t a (before ++ after)) path.
Proof.
  intros Hextra. unfold find. cbn [children].
  induction before as [|child before IH]; cbn [app List.find].
  - by rewrite Hextra.
  - by rewrite IH.
Qed.

Lemma findall_skip t a (before after : list Element) extra path :
  String.eqb (tag extra) path = false →
  findall (mkElement t a (before ++ extra :: after)) path =
  findall (mkElement t a (before ++ after)) path.
Proof.
  intros Hextra. unfold findall. cbn [children].
  rewrite !List.filter_app. cbn [List.filter]. by rewrite Hextra.
Qed.

Lemma member_false_cons key k keys :
  member key (k :: keys) = false →
  String.eqb key k = false ∧ member key keys = false.
Proof. unfold member. cbn [existsb]. by intros [? ?]%orb_false_elim. Qed.

(** A child that is none of the declarations a method looks for changes
    nothing: a complex type is resolved from its [complexContent],
    [simpleContent], [sequence] and [attribute] children alone, an element's
    content from its [simpleType] and [complexType] children alone, and an
    attribute from its [simpleType] children alone, wherever the other child
    stands among them. *)
Theorem other_children_are_invisible
    (self : XSDSchemaCompiler) (fuel : nat) (t : string)
    (a : gmap string string) (before after : list Element) (extra : Element) :
  (member (tag extra)
     [XSD_NS +:+ "complexContent"; XSD_NS +:+ "simpleContent";
      XSD_NS +:+ "sequence"; XSD_NS +:+ "attribute"] = false →
   ∀ context_name,
     _expr_for_complex_type self fuel
       (mkElement t a (before ++ extra :: after)) context_name =
     _expr_for_complex_type self fuel
       (mkElement t a (before ++ after)) context_name) ∧
  (member (tag extra)
     [XSD_NS +:+ "simpleType"; XSD_NS +:+ "complexType"] = false →
   _element_to_field self fuel (mkElement t a (before ++ extra :: after)) =
   _element_to_field self fuel (mkElement t a (before ++ after))) ∧
  (member (tag extra) [XSD_NS +:+ "simpleType"] = false →
   _attribute_to_field self fuel (mkElement t a (before ++ extra :: after)) =
   _attribute_to_field self fuel (mkElement t a (before ++ after))).
Proof.
  split; [|split].
  - intros (H1 & (H2 & (H3 & (H4 & _)%member_false_cons)%member_false_cons)
                   %member_false_cons)%member_false_cons context_name.
    destruct fuel as [|fuel]; [done|]. cbn [_expr_for_complex_type].
    by rewrite !(find_skip _ _ _ _ _ _ H1), !(find_skip _ _ _ _ _ _ H2),
      !(find_skip _ _ _ _ _ _ H3), !(findall_skip _ _ _ _ _ _ H4).
  - intros (H1 & (H2 & _)%member_false_cons)%member_false_cons.
    destruct fuel as [|[|fuel]]; [done..|].
    rewrite !Occurs.element_to_field_S, !Fuel.expr_for_element_content_S.
    cbn zeta.
    by rewrite !(find_skip _ _ _ _ _ _ H1), !(find_skip _ _ _ _ _ _ H2).
  - intros (H1 & _)%member_false_cons.
    destruct fuel as [|fuel]; [done|].
    rewrite !Attribute.attribute_to_field_S. unfold attribute_type_expr.
    cbn zeta. by rewrite !(find_skip _ _ _ _ _ _ H1).
Qed.

Lemma other_children_are_invisible_witness :
  _expr_for_complex_type (init "capec.xsd" Sample.catalog []) 4
    (mkElement (XSD_NS +:+ "complexType") ∅
       ([] ++ Sample.xs "annotation" [] [] ::
          [Sample.xs "sequence" [] [Sample.example_instance]])) "examples" =
  _expr_for_complex_type (init "capec.xsd" Sample.catalog []) 4
    (mkElement (XSD_NS +:+ "complexType") ∅
       ([] ++ [Sample.xs "sequence" [] [Sample.example_instance]])) "examples".
Proof.
  apply (other_children_are_invisible
           (init "capec.xsd" Sample.catalog []) 4
           (XSD_NS +:+ "complexType") ∅ []
           [Sample.xs "sequence" [] [Sample.example_instance]]
           (Sample.xs "annotation" [] [])).
  by vm_compute.
Defined.

(** A complex type with an extension is resolved from the extension alone,
    and from the extension only its base and its attribute children count:
    two complex types whose extensions agree on these resolve alike, so the
    sequence and the attributes that stand beside (or inside) the extension
    are never walked. *)
Theorem extension_hides_the_rest
    (self : XSDSchemaCompiler) (fuel : nat)
    (node node' extension extension' : Element) (context_name : string) :
  extension_of node = Some extension →
  extension_of node' = Some extension' →
  get_default extension "base" "xs:string" =
    get_default extension' "base" "xs:string" →
  findall extension (XSD_NS +:+ "attribute") =
    findall extension' (XSD_NS +:+ "attribute") →
  _expr_for_complex_type self fuel node context_name =
  _expr_for_complex_type self fuel node' context_name.
Proof.
  intros Hext Hext' Hbase Hattrs. destruct fuel as [|fuel]; [done|].
  rewrite (Complex.expr_for_complex_type_extension _ _ _ _ _ Hext).
  rewrite (Complex.expr_for_complex_type_extension _ _ _ _ _ Hext').
  by rewrite Hbase, Hattrs.
Qed.

Lemma extension_hides_the_rest_witness :
  _expr_for_complex_type (init "capec.xsd" Sample.catalog []) 5
    Sample.skill_type "skill" =
  _expr_for_complex_type (init "capec.xsd" Sample.catalog []) 5
    (Sample.xs "complexType" [("name", "SkillType")]
       [Sample.xs "simpleContent" [] [Sample.skill_extension];
        Sample.xs "sequence" [] [Sample.example_instance];
        Sample.note_attribute]) "skill".
Proof.
  apply (extension_hides_the_rest
           (init "capec.xsd" Sample.catalog []) 5 Sample.skill_type
           (Sample.xs "complexType" [("name", "SkillType")]
              [Sample.xs "simpleContent" [] [Sample.skill_extension];
               Sample.xs "sequence" [] [Sample.example_instance];
               Sample.note_attribute])
           Sample.skill_extension Sample.skill_extension "skill");
    by vm_compute.
Defined.

Lemma no_xs_prefix (pre local : string) :
  Lines.occurs ":" pre = false → pre ≠ "xs" →
  String.prefix "xs:" (pre +:+ ":" +:+ local) = false.
Proof.
  intros Hpre Hxs. apply not_true_is_false.
  intros [r Hr]%Rendering.prefix_spec.
  destruct pre as [|c1 [|c2 [|c3 pre]]];
    rewrite ?Names.append_cons in Hr; try by injection Hr.
  - injection Hr as -> ->. done.
  - injection Hr as -> -> -> _.
    cbn [Lines.occurs Ascii.eqb Bool.eqb] in Hpre. done.
Qed.

Lemma no_colon_no_xs (local : string) :
  Lines.occurs ":" local = false → String.prefix "xs:" local = false.
Proof.
  intros Hlocal. apply not_true_is_false.
  intros [r ->]%Rendering.prefix_spec. by vm_compute in Hlocal.
Qed.

(** A namespace prefix other than [xs] plays no part in resolving a type
    reference: [pre:local] resolves as [local] does.  The literal prefix
    [xs] is different: such a reference is a builtin scalar whatever the
    index declares. *)
Theorem type_reference_prefix
    (self : XSDSchemaCompiler) (fuel : nat) (context_name : string) :
  (∀ pre local : string,
     Lines.occurs ":" pre = false → Lines.occurs "}" pre = false →
     Lines.occurs ":" local = false → Lines.occurs "}" local = false →
     pre ≠ "xs" →
     _expr_for_type_name self fuel (pre +:+ ":" +:+ local) context_name =
     _expr_for_type_name self fuel local context_name) ∧
  (∀ local : string,
     _expr_for_type_name self (S fuel) ("xs:" +:+ local) context_name =
     Some (Scalar (_builtin_scalar ("xs:" +:+ local)))).
Proof.
  split.
  - intros pre local Hpc Hpb Hlc Hlb Hxs.
    destruct fuel as [|fuel]; [done|].
    rewrite !Fuel.expr_for_type_name_S. cbn zeta. unfold _builtin_scalar.
    by rewrite (Names.strip_ns_prefixed pre local Hpb Hpc Hlb),
      (Names.strip_ns_plain local Hlb Hlc),
      (no_xs_prefix _ _ Hpc Hxs), (no_colon_no_xs _ Hlc).
  - intros local. rewrite Fuel.expr_for_type_name_S. cbn zeta.
    replace (String.prefix "xs:" ("xs:" +:+ local)) with true; [done|].
    symmetry. apply Rendering.prefix_spec. by exists local.
Qed.

Lemma type_reference_prefix_witness :
  _expr_for_type_name (init "capec.xsd" Sample.catalog []) 3
    "capec:SeverityType" "level" =
  _expr_for_type_name (init "capec.xsd" Sample.catalog []) 3
    "SeverityType" "level".
Proof.
  destruct (type_reference_prefix
              (init "capec.xsd" Sample.catalog []) 3 "level") as [H _].
  apply (H "capec" "SeverityType"); by vm_compute.
Defined.

End Dispatch.

(** ** Aliases, the ignore file and the rendered text *)

Module Surface.

Lemma alias_lookup_cases root_identifier :
  alias_lookup root_identifier = root_identifier ∨
  alias_lookup root_identifier ∈
    ["AttackPatternType"; "WeaknessType"; "Attack_Pattern_Catalog";
     "Weakness_Catalog"].
Proof.
  unfold alias_lookup, member. cbn [aliases fmap list_fmap fst existsb dict_get].
  destruct (String.eqb_spec root_identifier "attack_pattern") as [->|H1];
    [right; set_solver|].
  destruct (String.eqb_spec root_identifier "weakness") as [->|H2];
    [right; set_solver|].
  destruct (String.eqb_spec root_identifier "attack_pattern_catalog") as [->|H3];
    [right; set_solver|].
  destruct (String.eqb_spec root_identifier "weakness_catalog") as [->|H4];
    [right; set_solver|].
  by left.
Qed.

Lemma alias_lookup_idempotent root_identifier :
  alias_lookup (alias_lookup root_identifier) = alias_lookup root_identifier.
Proof.
  destruct (alias_lookup_cases root_identifier) as [Heq|H];
    [by rewrite Heq|].
  repeat (apply elem_of_cons in H as [->|H]; [by vm_compute|]).
  by apply elem_of_nil in H.
Qed.

(** An alias only renames: compiling the logical root name and compiling the
    declared name it stands for end the same way, and when they return they
    return the same type expression, each under the normalized form of the
    name that was asked for. *)
Theorem alias_only_renames
    (self : XSDSchemaCompiler) (fuel : nat) (root_identifier : string) :
  match compile_root self fuel root_identifier with
  | Returned (name, e) =>
      name = _snake_case root_identifier ∧
      compile_root self fuel (alias_lookup root_identifier) =
      Returned (_snake_case (alias_lookup root_identifier), e)
  | ValueError _ =>
      compile_root self fuel (alias_lookup root_identifier) =
      ValueError (not_found_message (alias_lookup root_identifier)
                    (schema_path self))
  | RecursionError =>
      compile_root self fuel (alias_lookup root_identifier) = RecursionError
  end.
Proof.
  pose proof (alias_lookup_idempotent root_identifier) as Hidem.
  destruct (global_elements self !! alias_lookup root_identifier)
    as [element|] eqn:Hge.
  { rewrite (Root.compile_root_global self _ root_identifier element) by done.
    rewrite (Root.compile_root_global self _ (alias_lookup root_identifier)
               element) by by rewrite Hidem.
    by destruct (_expr_for_element_content self fuel element). }
  destruct (complex_types self !! alias_lookup root_identifier)
    as [node|] eqn:Hct.
  { rewrite (Root.compile_root_complex self _ root_identifier node) by done.
    rewrite (Root.compile_root_complex self _ (alias_lookup root_identifier)
               node) by by rewrite Hidem.
    rewrite Hidem.
    by destruct (_expr_for_complex_type self fuel node _). }
  rewrite (Root.compile_root_missing self _ root_identifier) by done.
  by rewrite (Root.compile_root_missing self _ (alias_lookup root_identifier))
    by by rewrite Hidem.
Qed.

(** *** The ignore file *)

Lemma name_char c :
  Str.is_lower c || Str.is_digit c || Str.is_underscore c = true →
  Lines.is_space c = false ∧ c ≠ "#"%char.
Proof. destruct c as [[] [] [] [] [] [] [] []]; vm_compute; by split. Qed.

Lemma strip_no_space s :
  (∀ c, Lines.occurs c s = true → Lines.is_space c = false) → Lines.strip s = s.
Proof.
  intros Hs. unfold Lines.strip.
  assert (Lines.lstrip s = s) as ->.
  { destruct s as [|c s]; [done|]. cbn [Lines.lstrip].
    rewrite (Hs c); [done|]. cbn [Lines.occurs]. by rewrite Ascii.eqb_refl. }
  induction s as [|c s IH]; [done|]. cbn [Lines.rstrip]. cbn zeta.
  rewrite (Hs c) by (cbn [Lines.occurs]; by rewrite Ascii.eqb_refl).
  cbn [andb]. f_equal. apply IH. intros d Hd. apply Hs.
  cbn [Lines.occurs]. by rewrite Hd, orb_true_r.
Qed.

(** A normalized, non-empty name is a line of the ignore file that is
    neither blank nor a comment, and stripping leaves it as it is. *)
Lemma normalized_line key :
  _snake_case key = key → key ≠ EmptyString →
  Lines.strip key = key ∧ String.prefix "#" key = false.
Proof.
  intros Hkey Hne.
  pose proof (Normalizer.snake_case_shaped key) as Hshaped.
  pose proof (Normalizer.no_upper_lower
                (Str.strip_underscore
                   (sub_camel_boundaries (sub_non_alnum_runs false key))))
    as Hupper.
  change (no_upper (_snake_case key) = true) in Hupper.
  rewrite Hkey in Hshaped, Hupper.
  assert (∀ c, Lines.occurs c key = true →
               Lines.is_space c = false ∧ c ≠ "#"%char) as Hchars.
  { intros c Hc. by apply name_char, (Names.shaped_chars true key). }
  split; [apply strip_no_space; intros c Hc; by apply Hchars|].
  destruct key as [|c key]; [done|]. cbn [String.prefix].
  destruct (ascii_dec "#" c) as [<-|]; [|done].
  destruct (Hchars "#"%char) as [_ H]; [done|done].
Qed.

Lemma read_keys_fold (lines : list string) (acc : gset string) key :
  key ∈ foldl (λ (ignored : gset string) raw,
                 let line := Lines.strip raw in
                 if String.eqb line EmptyString || String.prefix "#" line
                 then ignored
                 else {[ _snake_case line ]} ∪ ignored) acc lines ↔
  key ∈ acc ∨
  ∃ raw, raw ∈ lines ∧
    String.eqb (Lines.strip raw) EmptyString
    || String.prefix "#" (Lines.strip raw) = false ∧
    key = _snake_case (Lines.strip raw).
Proof.
  revert acc. induction lines as [|raw lines IH]; intros acc.
  - cbn [foldl]. split; [by left|]. intros [H|(raw & H%elem_of_nil & _)]; done.
  - cbn [foldl]. rewrite IH. cbn zeta.
    destruct (String.eqb _ _ || String.prefix _ _) eqn:Hskip.
    + split.
      * intros [H|(r & Hr & Hp & Hk)]; [by left|].
        right. exists r. split; [by right|done].
      * intros [H|(r & [->|Hr]%elem_of_cons & Hp & Hk)]; [by left|congruence|].
        right. by exists r.
    + split.
      * intros [[->%elem_of_singleton|H]%elem_of_union|(r & Hr & Hp & Hk)].
        -- right. exists raw. split; [by left|done].
        -- by left.
        -- right. exists r. split; [by right|done].
      * intros [H|(r & [->|Hr]%elem_of_cons & Hp & Hk)].
        -- left. apply elem_of_union. by right.
        -- left. apply elem_of_union. left. by apply elem_of_singleton.
        -- right. by exists r.
Qed.

(** The keys read from the ignore file: there are none without a file; for
    an ignore file of ASCII text, a key is in the set exactly when some line
    that is neither blank nor a comment normalizes to it, so every key is a
    normalized name; and a line that holds a normalized, non-empty name puts
    that very name in the set. *)
Theorem ignore_file_keys :
  _read_ignored_keys None = ∅ ∧
  (∀ text key,
     Lines.is_ascii text = true →
     key ∈ _read_ignored_keys (Some text) ↔
     ∃ raw, raw ∈ Lines.splitlines text ∧
       String.eqb (Lines.strip raw) EmptyString
       || String.prefix "#" (Lines.strip raw) = false ∧
       key = _snake_case (Lines.strip raw)) ∧
  (∀ text key,
     Lines.is_ascii text = true →
     key ∈ _read_ignored_keys (Some text) → _snake_case key = key) ∧
  (∀ text key,
     Lines.is_ascii text = true →
     key ∈ Lines.splitlines text → _snake_case key = key →
     key ≠ EmptyString → key ∈ _read_ignored_keys (Some text)).
Proof.
  assert (∀ text key,
     key ∈ _read_ignored_keys (Some text) ↔
     ∃ raw, raw ∈ Lines.splitlines text ∧
       String.eqb (Lines.strip raw) EmptyString
       || String.prefix "#" (Lines.strip raw) = false ∧
       key = _snake_case (Lines.strip raw)) as Hchar.
  { intros text key. unfold _read_ignored_keys. rewrite read_keys_fold.
    split; [intros [H|H]; [set_solver|done]|by right]. }
  split; [done|]. split; [by intros text key _|]. split.
  - intros text key _ (raw & _ & _ & ->)%Hchar.
    apply String.eqb_eq, Names.snake_case_normalized.
  - intros text key _ Hline Hkey Hne. apply Hchar. exists key.
    destruct (normalized_line key Hkey Hne) as [-> ->].
    split; [done|]. split; [|done].
    by destruct key.
Qed.

Lemma ignore_file_keys_witness :
  "related_weaknesses" ∈
  _read_ignored_keys
    (Some ("# hidden fields" +:+ newline +:+ "related_weaknesses" +:+ newline)).
Proof.
  destruct ignore_file_keys as (_ & _ & _ & H).
  apply H.
  - by vm_compute.
  - apply (bool_decide_eq_true_1 _ (Decision0 := _)). by vm_compute.
  - by vm_compute.
  - done.
Defined.

(** *** The text that [parse] writes *)

Lemma plain_name_char c :
  Str.is_lower c || Str.is_digit c || Str.is_underscore c = true →
  Lines.is_linebreak c || Lines.non_ascii c = false.
Proof. destruct c as [[] [] [] [] [] [] [] []]; by vm_compute. Qed.

Lemma free_of_occurs (p : ascii → bool) s :
  (∀ c, Lines.occurs c s = true → p c = false) → Lines.free_of p s = true.
Proof.
  induction s as [|c s IH]; [done|]. intros Hs. cbn [Lines.free_of].
  rewrite (Hs c) by (cbn [Lines.occurs]; by rewrite Ascii.eqb_refl).
  apply IH. intros d Hd. apply Hs. cbn [Lines.occurs]. by rewrite Hd, orb_true_r.
Qed.

(** A normalized name is ASCII text without a line boundary. *)
Lemma normalized_plain name : normalized name = true → Lines.plain name = true.
Proof.
  intros Hname%String.eqb_eq.
  pose proof (Normalizer.snake_case_shaped name) as Hshaped.
  pose proof (Normalizer.no_upper_lower
                (Str.strip_underscore
                   (sub_camel_boundaries (sub_non_alnum_runs false name))))
    as Hupper.
  change (no_upper (_snake_case name) = true) in Hupper.
  rewrite Hname in Hshaped, Hupper.
  apply free_of_occurs. intros c Hc.
  by apply plain_name_char, (Names.shaped_chars true name).
Qed.

Lemma expr_forall_both (s1 n1 s2 n2 s n : string → bool) (e : Expr) :
  (∀ v, s1 v = true → s2 v = true → s v = true) →
  (∀ x, n1 x = true → n2 x = true → n x = true) →
  expr_forall s1 n1 e = true → expr_forall s2 n2 e = true →
  expr_forall s n e = true.
Proof.
  intros Hs Hn.
  induction e as [value|fields IH|inner IH|inner IH] using Invariant.Expr_ind;
    [cbn [expr_forall]; by auto| |cbn [expr_forall]; by auto..].
  rewrite !Invariant.expr_forall_object.
  induction IH as [|[name e] fields He _ IHfields]; [done|].
  cbn [forallb field_name field_expr] in *.
  intros [[H1 H2]%andb_prop H3]%andb_prop [[H4 H5]%andb_prop H6]%andb_prop.
  by rewrite (Hn _ H1 H4), (He H2 H5), (IHfields H3 H6).
Qed.

(** What [parse] returns: the file is named after the normalized root
    identifier and holds the rendering of the compiled expression.  When the
    scalars of that expression (the enumeration values, that is) are ASCII
    text without a line boundary, the text is a sequence of lines, each
    ended by a line feed, of which the first starts with the normalized
    root identifier and a colon, and every line is ASCII and not blank. *)
Theorem parse_output_shape
    (fuel : nat) (path : string) (document : Element)
    (root_identifier : string) (ignored : list string) (file text : string) :
  parse fuel path document root_identifier ignored = Returned (file, text) →
  file = _snake_case root_identifier +:+ ".schema.txt" ∧
  ∃ e : Expr,
    compile_root (init path document ignored) fuel root_identifier =
      Returned (_snake_case root_identifier, e) ∧
    text = render (_snake_case root_identifier) e ∧
    (expr_forall Lines.plain (λ _, true) e = true →
     text = Str.join newline (Lines.splitlines text) +:+ newline ∧
     (∃ (first : string) (rest : list string),
        Lines.splitlines text =
        (_snake_case root_identifier +:+ ":" +:+ first) :: rest) ∧
     Forall (λ line, Lines.is_ascii line = true ∧
                     Lines.strip line ≠ EmptyString)
            (Lines.splitlines text)).
Proof.
  unfold parse. cbn zeta.
  destruct (compile_root _ fuel root_identifier) as [[name e]| |] eqn:Hroot;
    [|done..].
  assert (name = _snake_case root_identifier) as ->.
  { unfold compile_root in Hroot. cbn zeta in Hroot.
    repeat case_match; try done;
      by match goal with
         | H : returned_or_recursion_error ?o = _ |- _ =>
             destruct o as [[] |] eqn:Ho; [|done];
             apply bind_Some in Ho as (? & ? & [= <- <-]);
             injection H as <- <-
         end. }
  intros [= <- <-]. split; [done|]. exists e. split; [done|]. split; [done|].
  intros Hscalars.
  destruct (Wellformed.compile_root_forall _ (λ _, true) normalized
              (λ _, eq_refl) eq_refl eq_refl (λ _, eq_refl)
              (λ _ Hname _, Hname) fuel root_identifier _ e Hroot)
    as [_ Hnames].
  assert (expr_forall Lines.plain Lines.plain e = true) as He.
  { apply (expr_forall_both Lines.plain (λ _, true) (λ _, true) normalized);
      [by intros v Hv _|by intros x _ Hx%normalized_plain|done..]. }
  assert (Lines.plain (_snake_case root_identifier) = true) as Hname
    by apply normalized_plain, Names.snake_case_normalized.
  pose proof (Mindmap.render_lines_plain _ e Hname He) as Hplain.
  assert (Lines.splitlines (render (_snake_case root_identifier) e) =
          render_lines (_snake_case root_identifier) e) as ->.
  { rewrite Mindmap.render_text. apply Mindmap.splitlines_join.
    - by destruct e.
    - revert Hplain. apply Forall_impl. intros line.
      apply Mindmap.plain_unbroken. }
  split; [apply Mindmap.render_text|]. split.
  - unfold render_lines. destruct e; cbn zeta; by eexists _, _.
  - pose proof (Mindmap.render_lines_marked (_snake_case root_identifier) e)
      as Hmarked.
    rewrite Forall_forall in Hplain, Hmarked. apply Forall_forall.
    intros line Hline. split; [by apply Mindmap.plain_ascii, Hplain|].
    intros Heq. apply Hmarked, Mindmap.marked_not_blank in Hline.
    by rewrite Heq in Hline.
Qed.

Lemma parse_output_shape_witness :
  ∃ text : string,
    parse 8 "capec.xsd" Sample.catalog "attack_pattern" [] =
      Returned ("attack_pattern.schema.txt", text) ∧
    text = Str.join newline (Lines.splitlines text) +:+ newline ∧
    (∃ (first : string) (rest : list string),
       Lines.splitlines text = ("attack_pattern" +:+ ":" +:+ first) :: rest) ∧
    Forall (λ line, Lines.is_ascii line = true ∧
                    Lines.strip line ≠ EmptyString)
           (Lines.splitlines text).
Proof.
  destruct (parse 8 "capec.xsd" Sample.catalog "attack_pattern" [])
    as [[file text]| |] eqn:Hparse; [|by vm_compute in Hparse..].
  destruct (parse_output_shape 8 "capec.xsd" Sample.catalog "attack_pattern" []
              file text Hparse) as (Hfile & e & Hroot & Htext & Hshape).
  exists text. rewrite Hfile. split; [done|]. apply Hshape.
  assert (Returned ("attack_pattern", e) =
          compile_root (init "capec.xsd" Sample.catalog []) 8 "attack_pattern")
    as Heq by (by rewrite Hroot).
  vm_compute in Heq. injection Heq as ->. by vm_compute.
Defined.

End Surface.
